(** * Shopify translator: batching pipeline, rate governor and request validation

    A shallow embedding of [js/translation-service.js], of the rate-limit
    part of [js/shopify-api.js] and of the pre-flight validation of the
    application script, with the properties of the batching and
    token-tracking pipeline proved over it. *)

From Stdlib Require Import ZArith NArith Ascii String.
From stdpp Require Import gmap strings list fin_maps.

Local Open Scope N_scope.
Local Open Scope nat_scope.

(** ** JavaScript values used by the program *)

Module JS.

(** A JavaScript string is a sequence of UTF-16 code units. *)
Abbreviation jsstring := (list N).

(** [lit "abc"] is the JavaScript string with these ASCII characters. *)
Definition lit (s : string) : jsstring :=
  N_of_ascii <$> list_ascii_of_string s.

(** ECMAScript [WhiteSpace] and [LineTerminator] code points, the ones
    [String.prototype.trim] removes. *)
Definition isWhiteSpace (c : N) : bool :=
  bool_decide (c ∈ [9; 10; 11; 12; 13; 32; 160; 5760; 8232; 8233; 8239;
                    8287; 12288; 65279]%N)
  || ((8192 <=? c)%N && (c <=? 8202)%N).

Fixpoint trimStart (s : jsstring) : jsstring :=
  match s with
  | c :: s' => if isWhiteSpace c then trimStart s' else s
  | [] => []
  end.

Definition trimEnd (s : jsstring) : jsstring :=
  reverse (trimStart (reverse s)).

(** [s.trim()] *)
Definition trim (s : jsstring) : jsstring := trimEnd (trimStart s).

(** A string that neither starts nor ends with white space. *)
Definition trimmed (s : jsstring) : Prop :=
  (∀ c rest, s = c :: rest → isWhiteSpace c = false)
  ∧ (∀ body c, s = body ++ [c] → isWhiteSpace c = false).

(** [sep] occurs in [s]. *)
Definition occursIn (sep s : jsstring) : Prop :=
  ∃ before after, s = before ++ sep ++ after.

(** A string is truthy when it is not the empty string. *)
Definition truthy (s : jsstring) : bool := negb (bool_decide (s = [])).

(** [o && ...] on a property that may be undefined or null. *)
Definition truthy_opt (o : option jsstring) : bool :=
  match o with Some s => truthy s | None => false end.

Fixpoint startsWith (p s : jsstring) : bool :=
  match p, s with
  | [], _ => true
  | a :: p', b :: s' => bool_decide (a = b) && startsWith p' s'
  | _ :: _, [] => false
  end.

(** [s.split(sep)] for a non-empty separator: the input is scanned from the
    left, every occurrence of [sep] that starts after the previous one has
    ended closes the current piece.  [skip] counts the code units of a
    matched separator still to be passed over, [cur] is the piece being
    read. *)
Fixpoint split_from (sep : jsstring) (skip : nat) (cur s : jsstring)
  : list jsstring :=
  match s with
  | [] => [cur]
  | c :: s' =>
      match skip with
      | S k => split_from sep k cur s'
      | O =>
          if startsWith sep s
          then cur :: split_from sep (length sep - 1) [] s'
          else split_from sep 0 (cur ++ [c]) s'
      end
  end.

Definition split (sep s : jsstring) : list jsstring := split_from sep 0 [] s.

(** [pieces.join(sep)] *)
Fixpoint join (sep : jsstring) (pieces : list jsstring) : jsstring :=
  match pieces with
  | [] => []
  | [p] => p
  | p :: rest => p ++ sep ++ join sep rest
  end.

(** [a.slice(start, end)] on an array, for non-negative indices. *)
Definition slice {A} (start end_ : nat) (a : list A) : list A :=
  take (end_ - start) (drop start a).

End JS.

Import JS.

(** ** The document fragment behind [div.innerHTML] *)

Module Dom.

(** The nodes an HTML fragment parses to. *)
#[warnings="-register-all"]
Inductive node :=
| Text (nodeValue : jsstring)
| Comment (data : jsstring)
| Element (tagName : jsstring) (attributes : list (jsstring * jsstring))
          (childNodes : list node).

(** The values of the text nodes below a node, in document order: the
    sequence a [TreeWalker] with [NodeFilter.SHOW_TEXT] walks through. *)
Fixpoint textValues (n : node) : list jsstring :=
  match n with
  | Text v => [v]
  | Comment _ => []
  | Element _ _ cs => concat (textValues <$> cs)
  end.

Definition forestTexts (ns : list node) : list jsstring :=
  concat (textValues <$> ns).

(** Rewrites every text node, given its position in document order (counted
    from [start]) and its value. *)
Fixpoint mapTexts (f : nat -> jsstring -> jsstring) (start : nat) (n : node)
  : node :=
  match n with
  | Text v => Text (f start v)
  | Comment d => Comment d
  | Element t a cs =>
      Element t a
        ((fix children (start : nat) (cs : list node) : list node :=
            match cs with
            | [] => []
            | c :: cs' =>
                mapTexts f start c
                :: children (start + length (textValues c)) cs'
            end) start cs)
  end.

Fixpoint mapForestTexts (f : nat -> jsstring -> jsstring) (start : nat)
    (ns : list node) : list node :=
  match ns with
  | [] => []
  | n :: ns' =>
      mapTexts f start n
      :: mapForestTexts f (start + length (textValues n)) ns'
  end.

(** [node.nodeValue = v] on the [k]-th text node of the fragment. *)
Definition setNodeValue (k : nat) (v : jsstring) (ns : list node)
  : list node :=
  mapForestTexts (fun i old => if bool_decide (i = k) then v else old) 0 ns.

(** The fragment with the content of every text node erased: what is left
    is its markup structure. *)
Definition skeleton (ns : list node) : list node :=
  mapForestTexts (fun _ _ => []) 0 ns.

(** [div.textContent] *)
Definition textContent (ns : list node) : jsstring := concat (forestTexts ns).

End Dom.

(** ** The translation service ([js/translation-service.js]) *)

Module TranslationService.
Import Dom.

(** One text object handed to the service, as
    [validateFieldsForTranslation] builds it.  [hasHTML] and [originalHTML]
    are left undefined by the source for plain fields: [false] and [None]
    here. *)
Record TextItem := {
  field : string;
  originalText : jsstring;
  itemId : Z;
  hasHTML : bool;
  originalHTML : option jsstring
}.

(** [{ ...item, translatedText: t }] *)
Record TranslatedItem := {
  source : TextItem;
  translatedText : jsstring
}.

(** [{ ...item, translatedText: item.originalText }] *)
Definition withOriginal (item : TextItem) : TranslatedItem :=
  {| source := item; translatedText := originalText item |}.

(** *** Batch partitioner *)

Section Batches.
Context {A : Type}.

(** The [for (let i = 0; i < texts.length; i += batchSize)] loop of
    [createBatches], started at [i] with [batches] already pushed.  The loop
    has no bound of its own (with [batchSize = 0] it never leaves a
    non-empty array), so the model counts iterations down from [fuel] and
    answers [None] when they run out. *)
Fixpoint createBatches_loop (fuel : nat) (texts : list A) (batchSize i : nat)
    (batches : list (list A)) : option (list (list A)) :=
  if bool_decide (i < length texts) then
    match fuel with
    | O => None
    | S fuel' =>
        createBatches_loop fuel' texts batchSize (i + batchSize)
          (batches ++ [slice i (i + batchSize) texts])
    end
  else Some batches.

(** [createBatches(texts, batchSize)].  [length texts] iterations are enough
    for every [batchSize >= 1]; [None] stands for the loop that never ends. *)
Definition createBatches (texts : list A) (batchSize : nat)
  : option (list (list A)) :=
  createBatches_loop (length texts) texts batchSize 0 [].

End Batches.

(** *** Prompt codec: decoding *)

Inductive exn :=
| Error (message : jsstring)
| TypeError
| SyntaxError.

(** The token counts of a reply, as the endpoint reports them. *)
Record Usage := {
  total_tokens : N;
  prompt_tokens : N;
  completion_tokens : N
}.

(** The parsed body of a chat-completion reply.  A field is [None] when the
    JSON lacks it (or holds [null], or a value of another type, which the
    accesses below treat alike). *)
Record Message := { content : option jsstring }.
Record Choice := { message : option Message }.
Record Completion := {
  choices : option (list Choice);
  usage : option Usage
}.

Definition DELIMITER : jsstring := lit "|||".

(** [response.choices[0].message.content]: every missing link of the chain
    is a property access on [undefined], and a missing content makes
    [.trim()] one. *)
Definition responseContent (response : Completion) : exn + jsstring :=
  match choices response with
  | None => inl TypeError
  | Some cs =>
      match cs !! 0 with
      | None => inl TypeError
      | Some choice =>
          match message choice with
          | None => inl TypeError
          | Some m =>
              match content m with
              | None => inl TypeError
              | Some text => inr text
              end
          end
      end
  end.

(** [translations[index] || fallback] *)
Definition orElse (piece : option jsstring) (fallback : jsstring) : jsstring :=
  match piece with
  | Some t => if truthy t then t else fallback
  | None => fallback
  end.

(** The pieces of a reply: split on the delimiter, each one trimmed. *)
Definition decodePieces (text : jsstring) : list jsstring :=
  trim <$> split DELIMITER (trim text).

(** The [originalBatch.map((item, index) => ...)] of the [try] block. *)
Definition zipTranslations (translations : list jsstring)
    (originalBatch : list TextItem) : list TranslatedItem :=
  imap (fun index item =>
          {| source := item;
             translatedText :=
               orElse (translations !! index) (originalText item) |})
       originalBatch.

(** The body of the [try] block of [parseBatchResponse]. *)
Definition parseBatchResponse_try (response : Completion)
    (originalBatch : list TextItem) : exn + list TranslatedItem :=
  match responseContent response with
  | inl e => inl e
  | inr text => inr (zipTranslations (decodePieces text) originalBatch)
  end.

(** [parseBatchResponse(response, originalBatch)]: the [catch] answers with
    the original texts. *)
Definition parseBatchResponse (response : Completion)
    (originalBatch : list TextItem) : list TranslatedItem :=
  match parseBatchResponse_try response originalBatch with
  | inr results => results
  | inl _ => withOriginal <$> originalBatch
  end.

(** *** Field extractor and HTML bridge *)

(** A product, collection or page as the store returns it; a property the
    record lacks (or holds as [null]) is [None]. *)
Record StoreItem := {
  id : Z;
  title : option jsstring;
  body_html : option jsstring;
  tags : option jsstring
}.

(** [selectedFields.name]: the flag, falsy when the object lacks it. *)
Definition selected (selectedFields : gmap string bool) (name : string)
  : bool :=
  default false (selectedFields !! name).

Section Html.

(** The browser behind [div.innerHTML = html] (the children the fragment
    parser gives a fresh [div]) and behind reading [div.innerHTML] back. *)
Variable parseHTML : jsstring -> list node.
Variable serializeHTML : list node -> jsstring.

(** [stripHTML(html)]: [div.textContent || div.innerText || ''].  The [div]
    is never attached to the page, so its [innerText] is its [textContent]
    and an empty [textContent] ends in the empty string. *)
Definition stripHTML (html : jsstring) : jsstring :=
  let text := textContent (parseHTML html) in
  if truthy text then text else [].

(** The block [if (selectedFields.f && item.p) validatedTexts.push(...)] for
    a field passed on as it is. *)
Definition plainText (name : string) (flag : bool) (value : option jsstring)
    (item : StoreItem) : list TextItem :=
  match value with
  | Some text =>
      if flag && truthy text
      then [ {| field := name; originalText := text; itemId := id item;
                hasHTML := false; originalHTML := None |} ]
      else []
  | None => []
  end.

(** The same block for [body_html]: stripped first, pushed only when
    [textContent.trim()] is not empty. *)
Definition htmlText (name : string) (flag : bool) (item : StoreItem)
  : list TextItem :=
  match body_html item with
  | Some html =>
      if flag && truthy html
      then
        let textContent := stripHTML html in
        if truthy (trim textContent)
        then [ {| field := name; originalText := textContent;
                  itemId := id item; hasHTML := true;
                  originalHTML := Some html |} ]
        else []
      else []
  | None => []
  end.

(** [validateFieldsForTranslation(item, selectedFields, itemType)] *)
Definition validateFieldsForTranslation (item : StoreItem)
    (selectedFields : gmap string bool) (itemType : string) : list TextItem :=
  if String.eqb itemType "product" then
    plainText "title" (selected selectedFields "title") (title item) item
    ++ htmlText "description" (selected selectedFields "description") item
    ++ plainText "tags" (selected selectedFields "tags") (tags item) item
  else if String.eqb itemType "collection" then
    plainText "title" (selected selectedFields "title") (title item) item
    ++ htmlText "description" (selected selectedFields "description") item
  else if String.eqb itemType "page" then
    plainText "title" (selected selectedFields "title") (title item) item
    ++ htmlText "content" (selected selectedFields "content") item
  else [].

(** The [while (node = walker.nextNode())] loop of [restoreHTML]: the text
    nodes whose [nodeValue.trim()] is not empty, each one named by its
    position among the text nodes of the fragment, from [k] on. *)
Fixpoint nonBlankFrom (k : nat) (values : list jsstring) : list nat :=
  match values with
  | [] => []
  | v :: values' =>
      if truthy (trim v) then k :: nonBlankFrom (S k) values'
      else nonBlankFrom (S k) values'
  end.

Definition textNodes (div : list node) : list nat :=
  nonBlankFrom 0 (forestTexts div).

(** The fragment [restoreHTML] serialises: [textNodes[0].nodeValue] is
    assigned when [textNodes.length === 1]. *)
Definition restoredFragment (div : list node) (translatedText : jsstring)
  : list node :=
  match textNodes div with
  | [k] => setNodeValue k translatedText div
  | _ => div
  end.

(** [restoreHTML(originalHTML, translatedText)] *)
Definition restoreHTML (originalHTML translatedText : jsstring) : jsstring :=
  serializeHTML (restoredFragment (parseHTML originalHTML) translatedText).

End Html.

(** *** Service state and effects *)

(** The fields of a [TranslationService] object. *)
Record Service := {
  apiKey : option jsstring;
  totalTokensUsed : N;
  requestCount : N;
  batchSize : nat;
  maxTokensPerRequest : N
}.

(** [new TranslationService()] *)
Definition constructor : Service :=
  {| apiKey := None; totalTokensUsed := 0%N; requestCount := 0%N;
     batchSize := 10; maxTokensPerRequest := 3000%N |}.

(** What the service sees of the outside: how many [fetch] calls were made
    and which [delay]s were awaited, in order.  Logging neither reads nor
    writes the service and is left out. *)
Record World := {
  fetchCount : nat;
  delays : list N
}.

Abbreviation state := (Service * World)%type.

(** How a call ends: with a value, with a thrown exception, or never. *)
Inductive outcome (A : Type) :=
| Returns (a : A) (s : state)
| Throws (e : exn) (s : state)
| Diverges.
Arguments Returns {A} a s.
Arguments Throws {A} e s.
Arguments Diverges {A}.

Definition M (A : Type) : Type := state -> outcome A.

#[global] Instance M_ret : MRet M := fun A a s => Returns a s.
#[global] Instance M_bind : MBind M := fun A B k m s =>
  match m s with
  | Returns a s' => k a s'
  | Throws e s' => Throws e s'
  | Diverges => Diverges
  end.

Definition throw {A} (e : exn) : M A := fun s => Throws e s.
Definition diverge {A} : M A := fun _ => Diverges.

(** [try { body } catch (error) { handler }] *)
Definition try_catch {A} (body : M A) (handler : exn -> M A) : M A :=
  fun s =>
    match body s with
    | Throws e s' => handler e s'
    | r => r
    end.

Definition this : M Service := fun s => Returns (fst s) s.
Definition assign (f : Service -> Service) : M unit :=
  fun s => Returns tt (f (fst s), snd s).

(** The state an ended call leaves behind. *)
Definition final {A} (r : outcome A) : option state :=
  match r with
  | Returns _ s | Throws _ s => Some s
  | Diverges => None
  end.

(** What one [fetch] of the completions endpoint comes to. *)
Inductive FetchOutcome :=
| FetchRejects
| HttpError (message : option jsstring)
| JsonRejects
| JsonNull
| JsonData (data : Completion).

(** How a call of a callback of the page ends. *)
Inductive CallbackOutcome :=
| CallbackReturns
| CallbackThrows (e : exn).

(** The page around the service: [window.updateProgress] and
    [window.updateTokenCount], each one absent or falsy ([None]), or a
    function.  The service calls each of them at most once after a request,
    so a function is given by how its call after request number [k] of the
    run ends; a value that cannot be called throws every time. *)
Record Page := {
  updateProgress : option (nat -> CallbackOutcome);
  updateTokenCount : option (nat -> CallbackOutcome)
}.

(** Whether the call of a callback after request number [k] returns; a
    callback that is absent is not called. *)
Definition returnsAt (callback : option (nat -> CallbackOutcome)) (k : nat)
  : bool :=
  match callback with
  | Some f =>
      match f k with
      | CallbackReturns => true
      | CallbackThrows _ => false
      end
  | None => true
  end.

(** What [makeOpenAIRequest] returns when request number [k] is answered
    with [answer]: the body of the reply, unless the token callback, called
    for a reply with a usage block, throws; [None] when it throws. *)
Definition delivered (page : Page) (k : nat) (answer : FetchOutcome)
  : option Completion :=
  match answer with
  | JsonData data =>
      match usage data with
      | Some _ =>
          if returnsAt (updateTokenCount page) k then Some data else None
      | None => Some data
      end
  | _ => None
  end.

(** What a batch contributes to the results, given what came of its
    request: the decoded reply, or the original texts when the request
    failed. *)
Definition batchResults (reply : option Completion) (batch : list TextItem)
  : list TranslatedItem :=
  match reply with
  | Some data => parseBatchResponse data batch
  | None => withOriginal <$> batch
  end.

(** What one pass through the [try] statement of the loop of
    [batchTranslate] appends to the results.  When the progress callback
    throws, the results of the batch have been pushed, and the [catch]
    block pushes the batch once more, with its original texts. *)
Definition appended (page : Page) (k : nat) (answer : FetchOutcome)
    (batch : list TextItem) : list TranslatedItem :=
  match delivered page k answer with
  | Some data =>
      parseBatchResponse data batch
      ++ (if returnsAt (updateProgress page) k then []
          else withOriginal <$> batch)
  | None => withOriginal <$> batch
  end.

(** Whether the [try] block runs to its end on the batch whose request is
    number [k]: the request is answered with a JSON body and neither
    callback throws. *)
Definition unhindered (page : Page) (k : nat) (answer : FetchOutcome)
  : bool :=
  match delivered page k answer with
  | Some _ => returnsAt (updateProgress page) k
  | None => false
  end.

(** The usage counters of [s'] are at least those of [s]. *)
Definition usage_le (s s' : state) : Prop :=
  (totalTokensUsed (fst s) ≤ totalTokensUsed (fst s'))%N
  ∧ (requestCount (fst s) ≤ requestCount (fst s'))%N.

Section Upstream.

(** The endpoint: its answer to the [n]-th [fetch] of the run.  The request
    payload (model, prompts, token ceiling) reaches the service only through
    this answer, which is arbitrary here. *)
Variable upstream : nat -> FetchOutcome.

(** The page the service runs in. *)
Variable page : Page.

Definition fetch : M FetchOutcome := fun s =>
  Returns (upstream (fetchCount (snd s)))
          (fst s, {| fetchCount := S (fetchCount (snd s));
                     delays := delays (snd s) |}).

(** [delay(ms)] *)
Definition delay (ms : N) : M unit := fun s =>
  Returns tt (fst s, {| fetchCount := fetchCount (snd s);
                        delays := delays (snd s) ++ [ms] |}).

(** [setApiKey(apiKey)] *)
Definition setApiKey (key : option jsstring) : M unit :=
  assign (fun svc =>
    {| apiKey := key; totalTokensUsed := totalTokensUsed svc;
       requestCount := requestCount svc; batchSize := batchSize svc;
       maxTokensPerRequest := maxTokensPerRequest svc |}).

(** [if (window.f) { window.f(...) }] for a callback [f] of the page.  Both
    places that do this come after a request: the call is the one that
    follows the last request made, number [fetchCount - 1]. *)
Definition callPage (callback : option (nat -> CallbackOutcome)) : M unit :=
  fun s =>
    match callback with
    | None => Returns tt s
    | Some f =>
        match f (fetchCount (snd s) - 1) with
        | CallbackReturns => Returns tt s
        | CallbackThrows e => Throws e s
        end
    end.

(** The two assignments of the [if (data.usage)] block of
    [makeOpenAIRequest]. *)
Definition trackUsage (u : Usage) : M unit :=
  assign (fun svc =>
    {| apiKey := apiKey svc;
       totalTokensUsed := (totalTokensUsed svc + total_tokens u)%N;
       requestCount := (requestCount svc + 1)%N;
       batchSize := batchSize svc;
       maxTokensPerRequest := maxTokensPerRequest svc |}).

(** [makeOpenAIRequest(payload)] *)
Definition makeOpenAIRequest : M Completion :=
  svc ← this;
  if negb (truthy_opt (apiKey svc))
  then throw (Error (lit "OpenAI API key not set"))
  else
    response ← fetch;
    match response with
    | FetchRejects => throw TypeError
    | HttpError msg =>
        throw (Error (lit "OpenAI API Error: "
                      ++ orElse msg (lit "Unknown error")))
    | JsonRejects => throw SyntaxError
    | JsonNull => throw TypeError
    | JsonData data =>
        _ ← match usage data with
            | Some u =>
                _ ← trackUsage u;
                callPage (updateTokenCount page)
            | None => mret tt
            end;
        mret data
    end.

(** [translateBatch(batch, targetLanguage, context)] *)
Definition translateBatch (batch : list TextItem)
    (targetLanguage context : jsstring) : M (list TranslatedItem) :=
  response ← makeOpenAIRequest;
  mret (parseBatchResponse response batch).

(** The [try { ... } catch (error) { ... }] statement of the loop of
    [batchTranslate], for batch [i] of [total], [results] being what was
    pushed so far.  Two calls of the [try] block can throw:
    [translateBatch], before anything is pushed, and the progress callback,
    once the results of the batch are in the array.  The [catch] block
    pushes onto that same array, so it starts from [results] in the first
    case and from [pushed] in the second. *)
Definition batchTranslate_attempt (batch : list TextItem) (i total : nat)
    (targetLanguage context : jsstring) (results : list TranslatedItem)
  : M (list TranslatedItem) :=
  let caught (array : list TranslatedItem) (_ : exn) :=
    mret (array ++ (withOriginal <$> batch)) in
  try_catch
    (batchResults ← translateBatch batch targetLanguage context;
     let pushed := results ++ batchResults in
     try_catch
       (_ ← callPage (updateProgress page);
        _ ← (if bool_decide (i < total - 1) then delay 1000 else mret tt);
        mret pushed)
       (caught pushed))
    (caught results).

(** The [for (let i = 0; i < batches.length; i++)] loop from batch [i] on. *)
Fixpoint batchTranslate_loop (batches : list (list TextItem)) (i total : nat)
    (targetLanguage context : jsstring) (results : list TranslatedItem)
  : M (list TranslatedItem) :=
  match batches with
  | [] => mret results
  | batch :: rest =>
      results' ←
        batchTranslate_attempt batch i total targetLanguage context results;
      batchTranslate_loop rest (S i) total targetLanguage context results'
  end.

(** [batchTranslate(texts, targetLanguage, context)] *)
Definition batchTranslate (texts : list TextItem)
    (targetLanguage context : jsstring) : M (list TranslatedItem) :=
  svc ← this;
  if negb (truthy_opt (apiKey svc))
  then throw (Error (lit "OpenAI API key not set"))
  else
    match texts with
    | [] => mret []
    | _ :: _ =>
        match createBatches texts (batchSize svc) with
        | None => diverge
        | Some batches =>
            batchTranslate_loop batches 0 (length batches)
              targetLanguage context []
        end
    end.

(** [resetStats()] *)
Definition resetStats : M unit :=
  assign (fun svc =>
    {| apiKey := apiKey svc; totalTokensUsed := 0%N; requestCount := 0%N;
       batchSize := batchSize svc;
       maxTokensPerRequest := maxTokensPerRequest svc |}).

(** The methods of the class.  Those that only compute from their arguments
    ([createBatches], the prompt builders, [parseBatchResponse], the field
    and HTML helpers, [getStats], [log]) carry no argument here: what they
    return does not matter to the state of the object. *)
Inductive operation :=
| SetApiKey (key : option jsstring)
| BatchTranslate (texts : list TextItem) (targetLanguage context : jsstring)
| TranslateBatch (batch : list TextItem) (targetLanguage context : jsstring)
| MakeOpenAIRequest
| ResetStats
| Delay (ms : N)
| CreateBatches
| CreateBatchPrompt
| GetSystemPrompt
| ParseBatchResponse
| ValidateFieldsForTranslation
| StripHTML
| RestoreHTML
| GetStats
| Log.

(** One call of a method on the object, its result dropped. *)
Definition perform (op : operation) : M unit :=
  match op with
  | SetApiKey key => setApiKey key
  | BatchTranslate texts lang ctx => _ ← batchTranslate texts lang ctx; mret tt
  | TranslateBatch batch lang ctx => _ ← translateBatch batch lang ctx; mret tt
  | MakeOpenAIRequest => _ ← makeOpenAIRequest; mret tt
  | ResetStats => resetStats
  | Delay ms => delay ms
  | CreateBatches | CreateBatchPrompt | GetSystemPrompt | ParseBatchResponse
  | ValidateFieldsForTranslation | StripHTML | RestoreHTML | GetStats | Log =>
      mret tt
  end.

(** A history of calls, each one starting where the one before ended (by
    returning or by throwing); [None] when one of them never ends. *)
Fixpoint performAll (ops : list operation) (s : state) : option state :=
  match ops with
  | [] => Some s
  | op :: ops' =>
      match final (perform op s) with
      | Some s' => performAll ops' s'
      | None => None
      end
  end.

End Upstream.

End TranslationService.

(** ** A browser on plain markup

    The HTML fragment parser and serialiser on the markup they treat without
    any special rule: text, and properly nested [div], [p] and [span]
    elements without attributes.  Both answer [None] outside of it. *)

Module Browser.
Import Dom.

Definition isAsciiUpper (c : N) : bool := (65 <=? c)%N && (c <=? 90)%N.
Definition isAsciiLower (c : N) : bool := (97 <=? c)%N && (c <=? 122)%N.
Definition isAsciiAlpha (c : N) : bool := isAsciiUpper c || isAsciiLower c.

(** Tag names are lowercased by the tokenizer. *)
Definition toAsciiLower (c : N) : N :=
  if isAsciiUpper c then (c + 32)%N else c.

Definition plainTags : list jsstring := [lit "div"; lit "p"; lit "span"].

(** Tokenizer states. *)
Inductive mode :=
| Data
| TagOpen
| EndTagOpen
| StartTagName (name : jsstring)
| EndTagName (name : jsstring).

(** The stack of open elements, innermost first, each with the children it
    has so far (latest first), above the children of the fragment root. *)
Record builder := {
  openElements : list (jsstring * list node);
  rootChildren : list node;
  tokenizer : mode
}.

Definition appendChild (n : node) (b : builder) : builder :=
  match openElements b with
  | (t, kids) :: below =>
      {| openElements := (t, n :: kids) :: below;
         rootChildren := rootChildren b; tokenizer := tokenizer b |}
  | [] =>
      {| openElements := []; rootChildren := n :: rootChildren b;
         tokenizer := tokenizer b |}
  end.

(** A character goes to the text node that ends the current element, or to a
    new one. *)
Definition extendText (c : N) (kids : list node) : list node :=
  match kids with
  | Text v :: kids' => Text (v ++ [c]) :: kids'
  | _ => Text [c] :: kids
  end.

Definition insertCharacter (c : N) (b : builder) : builder :=
  match openElements b with
  | (t, kids) :: below =>
      {| openElements := (t, extendText c kids) :: below;
         rootChildren := rootChildren b; tokenizer := tokenizer b |}
  | [] =>
      {| openElements := []; rootChildren := extendText c (rootChildren b);
         tokenizer := tokenizer b |}
  end.

Definition setMode (m : mode) (b : builder) : builder :=
  {| openElements := openElements b; rootChildren := rootChildren b;
     tokenizer := m |}.

(** A start tag.  A [div] or [p] that meets an open [p] would close it: that
    is no longer plain nesting. *)
Definition startTag (name : jsstring) (b : builder) : option builder :=
  if bool_decide (name ∈ plainTags) then
    if bool_decide (name ≠ lit "span")
       && bool_decide (lit "p" ∈ (fst <$> openElements b))
    then None
    else Some {| openElements := (name, []) :: openElements b;
                 rootChildren := rootChildren b; tokenizer := Data |}
  else None.

(** An end tag, when it closes the current element. *)
Definition endTag (name : jsstring) (b : builder) : option builder :=
  match openElements b with
  | (t, kids) :: below =>
      if bool_decide (t = name) then
        Some (appendChild (Element t [] (reverse kids))
                {| openElements := below; rootChildren := rootChildren b;
                   tokenizer := Data |})
      else None
  | [] => None
  end.

(** Code units with a rule of their own in the data state: NUL, CR, [&] and
    the surrogates. *)
Definition isSpecialData (c : N) : bool :=
  bool_decide (c ∈ [0; 13; 38]%N) || ((55296 <=? c)%N && (c <=? 57343)%N).

Definition consume (b : builder) (c : N) : option builder :=
  match tokenizer b with
  | Data =>
      if bool_decide (c = 60%N) then Some (setMode TagOpen b)
      else if isSpecialData c then None
      else Some (insertCharacter c b)
  | TagOpen =>
      if bool_decide (c = 47%N) then Some (setMode EndTagOpen b)
      else if isAsciiAlpha c
      then Some (setMode (StartTagName [toAsciiLower c]) b)
      else None
  | EndTagOpen =>
      if isAsciiAlpha c then Some (setMode (EndTagName [toAsciiLower c]) b)
      else None
  | StartTagName name =>
      if bool_decide (c = 62%N) then startTag name b
      else if isAsciiAlpha c
      then Some (setMode (StartTagName (name ++ [toAsciiLower c])) b)
      else None
  | EndTagName name =>
      if bool_decide (c = 62%N) then endTag name b
      else if isAsciiAlpha c
      then Some (setMode (EndTagName (name ++ [toAsciiLower c])) b)
      else None
  end.

Fixpoint consumeAll (b : builder) (s : jsstring) : option builder :=
  match s with
  | [] => Some b
  | c :: s' =>
      match consume b c with
      | Some b' => consumeAll b' s'
      | None => None
      end
  end.

(** At the end of the input the elements still open stay in the tree with
    the children they have; [inner] is the element just closed, to be put
    last into the one around it. *)
Definition withInner (inner : option node) (kids : list node) : list node :=
  match inner with
  | Some n => n :: kids
  | None => kids
  end.

Fixpoint closeAll (open : list (jsstring * list node)) (inner : option node)
    (root : list node) : list node :=
  match open with
  | [] => reverse (withInner inner root)
  | (t, kids) :: below =>
      closeAll below (Some (Element t [] (reverse (withInner inner kids))))
        root
  end.

Definition parseFragment (html : jsstring) : option (list node) :=
  match consumeAll {| openElements := []; rootChildren := [];
                      tokenizer := Data |} html with
  | Some b =>
      match tokenizer b with
      | Data => Some (closeAll (openElements b) None (rootChildren b))
      | _ => None
      end
  | None => None
  end.

(** Text is escaped when it is written out. *)
Definition escapeCharacter (c : N) : jsstring :=
  if bool_decide (c = 38%N) then lit "&amp;"
  else if bool_decide (c = 160%N) then lit "&nbsp;"
  else if bool_decide (c = 60%N) then lit "&lt;"
  else if bool_decide (c = 62%N) then lit "&gt;"
  else [c].

Definition escapeText (v : jsstring) : jsstring :=
  concat (escapeCharacter <$> v).

Definition sequenceOptions {A} (l : list (option A)) : option (list A) :=
  foldr (fun o acc =>
           match o, acc with
           | Some x, Some xs => Some (x :: xs)
           | _, _ => None
           end) (Some []) l.

Fixpoint serializeNode (n : node) : option jsstring :=
  match n with
  | Text v => Some (escapeText v)
  | Comment _ => None
  | Element t a cs =>
      if bool_decide (t ∈ plainTags) && bool_decide (a = []) then
        match sequenceOptions (serializeNode <$> cs) with
        | Some parts =>
            Some (lit "<" ++ t ++ lit ">" ++ concat parts
                  ++ lit "</" ++ t ++ lit ">")
        | None => None
        end
      else None
  end.

Definition serializeFragment (ns : list node) : option jsstring :=
  match sequenceOptions (serializeNode <$> ns) with
  | Some parts => Some (concat parts)
  | None => None
  end.

(** The two directions of [innerHTML], total: outside plain markup they
    answer the empty fragment and the empty string, and stand for no
    browser there. *)
Definition parseHTML (html : jsstring) : list node :=
  default [] (parseFragment html).

Definition serializeHTML (ns : list node) : jsstring :=
  default [] (serializeFragment ns).

End Browser.

(** ** The rate governor of the store client ([js/shopify-api.js]) *)

Module ShopifyAPI.

(** The numbers that reach the rate state: call counts, or [NaN] when a
    header piece is no number. *)
Inductive jsnum :=
| NaN
| Num (z : Z).

(** [a <= b]: false as soon as one side is [NaN]. *)
Definition lessOrEqual (a b : jsnum) : bool :=
  match a, b with
  | Num x, Num y => (x <=? y)%Z
  | _, _ => false
  end.

(** [a - b] for array elements that may be [undefined] ([None]). *)
Definition minus (a b : option jsnum) : jsnum :=
  match a, b with
  | Some (Num x), Some (Num y) => Num (x - y)
  | _, _ => NaN
  end.

(** The headers of a response, through their [get] method. *)
Record Headers := { get : string -> option jsstring }.

Record Client := {
  storeUrl : option jsstring;
  apiKey : option jsstring;
  isConnected : bool;
  rateLimitRemaining : jsnum;
  lastRequestTime : Z
}.

(** [new ShopifyAPI()] *)
Definition constructor : Client :=
  {| storeUrl := None; apiKey := None; isConnected := false;
     rateLimitRemaining := Num 40; lastRequestTime := 0 |}.

(** [waitForRateLimit()].  [now] is what [Date.now()] reads on entry and
    [resumed] what it reads at the end; the first component is the time
    handed to [setTimeout] when the call is suspended, in milliseconds. *)
Definition waitForRateLimit (api : Client) (now resumed : Z)
  : option Z * Client :=
  let timeSinceLastRequest := (now - lastRequestTime api)%Z in
  let suspension :=
    if lessOrEqual (rateLimitRemaining api) (Num 2)
       && (timeSinceLastRequest <? 1000)%Z
    then Some (1000 - timeSinceLastRequest)%Z
    else None in
  (suspension,
   {| storeUrl := storeUrl api; apiKey := apiKey api;
      isConnected := isConnected api;
      rateLimitRemaining := rateLimitRemaining api;
      lastRequestTime := resumed |}).

Section Numbers.

(** [Number(s)] of the platform. *)
Variable Number : jsstring -> jsnum.

(** [updateRateLimit(headers)] *)
Definition updateRateLimit (api : Client) (headers : Headers) : Client :=
  match get headers "X-Shopify-Shop-Api-Call-Limit" with
  | Some remaining =>
      if truthy remaining then
        let numbers := Number <$> split (lit "/") remaining in
        let used := numbers !! 0 in
        let total := numbers !! 1 in
        {| storeUrl := storeUrl api; apiKey := apiKey api;
           isConnected := isConnected api;
           rateLimitRemaining := minus total used;
           lastRequestTime := lastRequestTime api |}
      else api
  | None => api
  end.

End Numbers.

(** [Number] on the strings of decimal digits, the form both counters of the
    header have (the empty string is 0).  Every other string is taken to
    [NaN] here, which is not what [Number] does with signs, blanks,
    fractions or exponents. *)
Definition isDigit (c : N) : bool := (48 <=? c)%N && (c <=? 57)%N.

Definition digitsValue (s : jsstring) : Z :=
  foldl (fun acc c => (10 * acc + (Z.of_N c - 48))%Z) 0%Z s.

Definition decimalNumber (s : jsstring) : jsnum :=
  if forallb isDigit s then Num (digitsValue s) else NaN.

End ShopifyAPI.

(** ** Pre-flight validation of the application script *)

Module App.

Inductive level := info | success | warning | error.

(** One [logManager.log(level, message)]. *)
Record LogEntry := { severity : level; text : string }.

(** [s.slice(0, -1)] *)
Definition dropLast (s : string) : string :=
  substring 0 (String.length s - 1) s.

(** [validateTranslationRequest(selectedFields, selectedIds, itemType)]: the
    answer and what it logs. *)
Definition validateTranslationRequest (selectedFields : gmap string bool)
    (selectedIds : list jsstring) (itemType : string)
  : bool * list LogEntry :=
  let hasSelectedFields :=
    existsb (fun field => field) (snd <$> map_to_list selectedFields) in
  if negb hasSelectedFields then
    (false,
     [ {| severity := error;
          text := "Please select at least one field to translate for "
                  +:+ itemType |} ])
  else if bool_decide (length selectedIds = 0) then
    (false,
     [ {| severity := error;
          text := "Please select at least one " +:+ dropLast itemType
                  +:+ " to translate" |} ])
  else (true, []).

Section Job.

(** The network as a translation job sees it, and the [try] block of the
    job (fetching, translating and writing back every selected item). *)
Variable Network : Type.
Variable job : gmap string bool -> list jsstring -> Network -> Network.

(** [translateProducts()], [translateCollections()] and [translatePages()]
    after they have read the form: the guard, then the job. *)
Definition translateSelected (selectedFields : gmap string bool)
    (selectedIds : list jsstring) (plural : string) (net : Network)
  : list LogEntry * Network :=
  let '(ok, log) :=
    validateTranslationRequest selectedFields selectedIds plural in
  if negb ok then (log, net)
  else (log, job selectedFields selectedIds net).

End Job.

End App.

(** ** Sample data *)

Module Fixtures.
Import TranslationService.

Definition plainItem (name : string) (text : string) : TextItem :=
  {| field := name; originalText := lit text; itemId := 7;
     hasHTML := false; originalHTML := None |}.

Definition titleItem : TextItem := plainItem "title" "Blue Shirt".
Definition tagsItem : TextItem := plainItem "tags" "shirt, blue".

(** A reply with the given text as the content of its first choice. *)
Definition reply (text : string) (tokens : N) : Completion :=
  {| choices := Some [ {| message := Some {| content := Some (lit text) |} |} ];
     usage := Some {| total_tokens := tokens; prompt_tokens := tokens;
                      completion_tokens := 0 |} |}.

(** A reply without any choice. *)
Definition emptyReply : Completion := {| choices := Some []; usage := None |}.

(** A service with its key set, and a fresh world. *)
Definition keyed : Service :=
  {| apiKey := Some (lit "sk-test"); totalTokensUsed := 0%N;
     requestCount := 0%N; batchSize := 10; maxTokensPerRequest := 3000%N |}.

Definition fresh : World := {| fetchCount := 0; delays := [] |}.

(** A page that defines neither callback. *)
Definition bare : Page :=
  {| updateProgress := None; updateTokenCount := None |}.

(** A page whose callbacks both throw on every call. *)
Definition broken : Page :=
  {| updateProgress := Some (fun _ => CallbackThrows TypeError);
     updateTokenCount := Some (fun _ => CallbackThrows TypeError) |}.

(** The page of the application once its elements are in place: both
    callbacks are defined and return. *)
Definition settled : Page :=
  {| updateProgress := Some (fun _ => CallbackReturns);
     updateTokenCount := Some (fun _ => CallbackReturns) |}.


(** Five requests, for a service that sends them two at a time. *)
Definition fiveItems : list TextItem :=
  plainItem "title" <$> ["one"; "two"; "three"; "four"; "five"]%string.

Definition keyedByTwo : Service :=
  {| apiKey := Some (lit "sk-test"); totalTokensUsed := 0%N;
     requestCount := 0%N; batchSize := 2; maxTokensPerRequest := 3000%N |}.

(** An endpoint whose second answer is a network failure. *)
Definition secondFails (n : nat) : FetchOutcome :=
  match n with
  | 0 => JsonData (reply "uno|||dos" 30)
  | 1 => FetchRejects
  | _ => JsonData (reply "cinco" 12)
  end.

End Fixtures.

(** ** Usage statistics and the course of a batch translation *)

Module Accounting.
Import TranslationService.

(** What [getStats()] returns. *)
Record Stats := {
  statsTokens : N;
  statsRequests : N;
  averageTokensPerRequest : N
}.

(** The counts up to which the counters are used here: integers below
    [countBound] are doubles, sums of them below it are exact, and the
    quotient of two of them, rounded to a double, lies on the same side of
    every half as the exact quotient. *)
Definition countBound : N := (2 ^ 51)%N.

(** [Math.round(a / b)] for two counts below [countBound], [b] positive: the
    nearest integer, a half going up.  Beyond that bound the quotient of
    the doubles can be rounded onto a half that the exact quotient lies
    under, and [Math.round] then gives one more than this. *)
Definition roundedQuotient (a b : N) : N := ((2 * a + b) / (2 * b))%N.

(** [getStats()] *)
Definition getStats (svc : Service) : Stats :=
  {| statsTokens := totalTokensUsed svc;
     statsRequests := requestCount svc;
     averageTokensPerRequest :=
       if (0 <? requestCount svc)%N
       then roundedQuotient (totalTokensUsed svc) (requestCount svc)
       else 0%N |}.

(** The answers of the endpoint to [n] requests in a row, the first of them
    being request number [first] of the run. *)
Fixpoint answersFrom (upstream : nat -> FetchOutcome) (first n : nat)
  : list FetchOutcome :=
  match n with
  | O => []
  | S n' => upstream first :: answersFrom upstream (S first) n'
  end.

(** The usage block of an answer, when it has one. *)
Definition usageOf (answer : FetchOutcome) : option Usage :=
  match answer with
  | JsonData data => usage data
  | _ => None
  end.

Definition tokensOf (answer : FetchOutcome) : N :=
  match usageOf answer with
  | Some u => total_tokens u
  | None => 0%N
  end.

Definition sumN (l : list N) : N := foldr N.add 0%N l.

(** The service once an answer has gone through [makeOpenAIRequest]: a
    usage block is added to the counters, anything else leaves them. *)
Definition counted (svc : Service) (answer : FetchOutcome) : Service :=
  match usageOf answer with
  | Some u =>
      {| apiKey := apiKey svc;
         totalTokensUsed := (totalTokensUsed svc + total_tokens u)%N;
         requestCount := (requestCount svc + 1)%N;
         batchSize := batchSize svc;
         maxTokensPerRequest := maxTokensPerRequest svc |}
  | None => svc
  end.

(** The delays the loop of [batchTranslate] awaits while it goes through
    the given answers, the first of them being that to request number [k],
    made for batch [i] of [total]. *)
Fixpoint pacing (page : Page) (answers : list FetchOutcome) (k i total : nat)
  : list N :=
  match answers with
  | [] => []
  | answer :: rest =>
      (if unhindered page k answer && bool_decide (i < total - 1)
       then [1000%N] else [])
      ++ pacing page rest (S k) (S i) total
  end.

(** The number of batches that [n] texts are cut into, [b] at a time. *)
Definition batchCount (n b : nat) : nat := (n + b - 1) / b.

(** What holds of a service since it was constructed, [sent] requests ago:
    no more requests are counted than were sent, and tokens are only
    counted together with a request. *)
Definition accountable (sent : nat) (s : state) : Prop :=
  sent ≤ fetchCount (snd s)
  ∧ (requestCount (fst s) ≤ N.of_nat (fetchCount (snd s) - sent))%N
  ∧ (requestCount (fst s) = 0%N → totalTokensUsed (fst s) = 0%N).

End Accounting.

(** ** Writing translations back onto a record (application script) *)

Module Apply.
Import Dom TranslationService.

Section Html.
Variable parseHTML : jsstring -> list node.
Variable serializeHTML : list node -> jsstring.

(** [item.originalHTML] as [div.innerHTML = ...] takes it: a missing
    property is [undefined], which the setter turns into that word. *)
Definition markupOf (originalHTML : option jsstring) : jsstring :=
  default (lit "undefined") originalHTML.

(** The value assigned to [updated.body_html]. *)
Definition bodyOf (item : TranslatedItem) : jsstring :=
  if hasHTML (source item)
  then restoreHTML parseHTML serializeHTML
         (markupOf (originalHTML (source item))) (translatedText item)
  else translatedText item.

Definition setTitle (updated : StoreItem) (text : jsstring) : StoreItem :=
  {| id := id updated; title := Some text; body_html := body_html updated;
     tags := tags updated |}.

Definition setBody (updated : StoreItem) (html : jsstring) : StoreItem :=
  {| id := id updated; title := title updated; body_html := Some html;
     tags := tags updated |}.

Definition setTags (updated : StoreItem) (text : jsstring) : StoreItem :=
  {| id := id updated; title := title updated;
     body_html := body_html updated; tags := Some text |}.

(** The body of the [forEach] of [applyProductTranslations]. *)
Definition applyProductField (selectedFields : gmap string bool)
    (updated : StoreItem) (item : TranslatedItem) : StoreItem :=
  if String.eqb (field (source item)) "title" then
    if selected selectedFields "title"
    then setTitle updated (translatedText item) else updated
  else if String.eqb (field (source item)) "description" then
    if selected selectedFields "description"
    then setBody updated (bodyOf item) else updated
  else if String.eqb (field (source item)) "tags" then
    if selected selectedFields "tags"
    then setTags updated (translatedText item) else updated
  else updated.

(** [applyProductTranslations(product, translatedTexts, selectedFields)] *)
Definition applyProductTranslations (product : StoreItem)
    (translatedTexts : list TranslatedItem)
    (selectedFields : gmap string bool) : StoreItem :=
  foldl (applyProductField selectedFields) product translatedTexts.

(** The body of the [forEach] of [applyCollectionTranslations]. *)
Definition applyCollectionField (selectedFields : gmap string bool)
    (updated : StoreItem) (item : TranslatedItem) : StoreItem :=
  if String.eqb (field (source item)) "title" then
    if selected selectedFields "title"
    then setTitle updated (translatedText item) else updated
  else if String.eqb (field (source item)) "description" then
    if selected selectedFields "description"
    then setBody updated (bodyOf item) else updated
  else updated.

(** [applyCollectionTranslations(collection, translatedTexts,
    selectedFields)] *)
Definition applyCollectionTranslations (collection : StoreItem)
    (translatedTexts : list TranslatedItem)
    (selectedFields : gmap string bool) : StoreItem :=
  foldl (applyCollectionField selectedFields) collection translatedTexts.

(** The body of the [forEach] of [applyPageTranslations]. *)
Definition applyPageField (selectedFields : gmap string bool)
    (updated : StoreItem) (item : TranslatedItem) : StoreItem :=
  if String.eqb (field (source item)) "title" then
    if selected selectedFields "title"
    then setTitle updated (translatedText item) else updated
  else if String.eqb (field (source item)) "content" then
    if selected selectedFields "content"
    then setBody updated (bodyOf item) else updated
  else updated.

(** [applyPageTranslations(page, translatedTexts, selectedFields)] *)
Definition applyPageTranslations (page : StoreItem)
    (translatedTexts : list TranslatedItem)
    (selectedFields : gmap string bool) : StoreItem :=
  foldl (applyPageField selectedFields) page translatedTexts.

End Html.

End Apply.

(** ** The log of the application ([LogManager]) *)

Module Logging.

(** One entry of [this.logs]. *)
Record Entry := {
  timestamp : jsstring;
  level : jsstring;
  message : jsstring
}.

(** [a.slice(-k)]: the last [k] elements, all of them when there are
    fewer. *)
Definition sliceLast {A} (k : nat) (a : list A) : list A :=
  drop (length a - k) a.

(** [log(level, message)] on [this.logs], the entry carrying the time of the
    call: pushed, then the log is cut to its last 100 entries. *)
Definition log (logs : list Entry) (entry : Entry) : list Entry :=
  let logs' := logs ++ [entry] in
  if bool_decide (100 < length logs') then sliceLast 100 logs' else logs'.

(** [clear()] *)
Definition clear (logs : list Entry) : list Entry := [].

(** A run of [log] calls. *)
Definition logAll (logs : list Entry) (entries : list Entry) : list Entry :=
  foldl log logs entries.

End Logging.

(** ** Requests to the store ([js/shopify-api.js]) *)

Module StoreClient.
Import ShopifyAPI.
Export TranslationService (exn, Error, TypeError, SyntaxError).

(** [s.includes(needle)] *)
Fixpoint includes (needle s : jsstring) : bool :=
  startsWith needle s
  || match s with
     | [] => false
     | _ :: s' => includes needle s'
     end.

(** [n.toString()] for a count: its decimal digits. *)
Fixpoint digitsOf (fuel n : nat) (acc : jsstring) : jsstring :=
  match fuel with
  | O => acc
  | S fuel' =>
      let acc' := (48 + N.of_nat (n mod 10))%N :: acc in
      if bool_decide (n < 10) then acc' else digitsOf fuel' (n / 10) acc'
  end.

Definition decimal (n : nat) : jsstring := digitsOf (S n) n [].

(** [storeUrl.replace(/^https?:\/\//, '')] *)
Definition stripProtocol (s : jsstring) : jsstring :=
  if startsWith (lit "https://") s then drop 8 s
  else if startsWith (lit "http://") s then drop 7 s
  else s.

(** [s.replace(/\/$/, '')] *)
Definition stripTrailingSlash (s : jsstring) : jsstring :=
  match reverse s with
  | c :: rest => if bool_decide (c = 47%N) then reverse rest else s
  | [] => s
  end.

Definition normalizeStoreUrl (storeUrl : jsstring) : jsstring :=
  stripTrailingSlash (stripProtocol storeUrl).

Section Store.

(** The JSON values the store answers with and is sent. *)
Variable Json : Type.

(** A response of [fetch]; [json] is [None] when [response.json()]
    rejects. *)
Record Response := {
  ok : bool;
  status : nat;
  headers : Headers;
  json : option Json
}.

(** A request handed to [fetch]. *)
Record Request := {
  url : jsstring;
  method : jsstring;
  accessToken : option jsstring;
  body : option Json
}.

(** What the client sees of the outside: the readings of [Date.now()] it
    has taken, the requests it has sent and the timers it has waited for,
    in order. *)
Record Net := {
  clockReads : nat;
  sent : list Request;
  timers : list Z
}.

Abbreviation situation := (Client * Net)%type.

Inductive result (A : Type) :=
| Done (a : A) (s : situation)
| Fail (e : exn) (s : situation)
| Hang.
Arguments Done {A} a s.
Arguments Fail {A} e s.
Arguments Hang {A}.

Definition Act (A : Type) : Type := situation -> result A.

#[global] Instance Act_ret : MRet Act := fun A a s => Done a s.
#[global] Instance Act_bind : MBind Act := fun A B k m s =>
  match m s with
  | Done a s' => k a s'
  | Fail e s' => Fail e s'
  | Hang => Hang
  end.

Definition fail {A} (e : exn) : Act A := fun s => Fail e s.

(** The situation an ended call leaves behind. *)
Definition ending {A} (r : result A) : option situation :=
  match r with
  | Done _ s | Fail _ s => Some s
  | Hang => None
  end.

(** The platform: the [k]-th reading of the clock, the answer to the
    [k]-th request ([None] when [fetch] rejects), [Number], whether a JSON
    value is [null] (reading a property of it throws), and the text with
    which a template literal renders [error.error || error.errors] of an
    error body when one of the two is truthy. *)
Variable clock : nat -> Z.
Variable respond : nat -> Request -> option Response.
Variable Number : jsstring -> jsnum.
Variable isNull : Json -> bool.
Variable errorDetail : Json -> option jsstring.

(** [await this.waitForRateLimit()] *)
Definition awaitRateLimit : Act unit := fun s =>
  let '(api, net) := s in
  let '(suspension, api') :=
    waitForRateLimit api (clock (clockReads net))
      (clock (S (clockReads net))) in
  Done tt
    (api',
     {| clockReads := S (S (clockReads net)); sent := sent net;
        timers := timers net
                  ++ match suspension with
                     | Some ms => [ms]
                     | None => []
                     end |}).

(** [await fetch(url, requestOptions)] *)
Definition fetch (request : Request) : Act (option Response) := fun s =>
  let '(api, net) := s in
  Done (respond (length (sent net)) request)
    (api,
     {| clockReads := clockReads net; sent := sent net ++ [request];
        timers := timers net |}).

(** What is thrown for a response that is not ok: an error with the status
    and [error.error || error.errors || 'Unknown error'] of its body, the
    body being [{ error: 'Unknown error' }] when it cannot be read. *)
Definition apiError (response : Response) : exn :=
  let message detail :=
    Error (lit "API Error " ++ decimal (status response) ++ lit ": "
           ++ detail) in
  match json response with
  | Some error =>
      if isNull error then TypeError
      else message (default (lit "Unknown error") (errorDetail error))
  | None => message (lit "Unknown error")
  end.

(** The request [makeRequest] hands to [fetch]. *)
Definition requestFor (api : Client) (endpoint : jsstring)
    (optMethod : option jsstring) (optBody : option Json) : Request :=
  {| url := lit "https://" ++ default (lit "null") (storeUrl api) ++ endpoint;
     method := TranslationService.orElse optMethod (lit "GET");
     accessToken := apiKey api;
     body := optBody |}.

(** [makeRequest(endpoint, options)], [options] being given by its [method]
    and [body].  The [catch] logs and throws the error on. *)
Definition makeRequest (endpoint : jsstring) (optMethod : option jsstring)
    (optBody : option Json) : Act Json := fun s =>
  if negb (isConnected (fst s))
     && negb (includes (lit "/shop.json") endpoint)
  then Fail (Error (lit "Not connected to store")) s
  else
    match awaitRateLimit s with
    | Done _ s1 =>
        match fetch (requestFor (fst s1) endpoint optMethod optBody) s1 with
        | Done (Some response) s2 =>
            let s3 := (updateRateLimit Number (fst s2) (headers response),
                       snd s2) in
            if negb (ok response) then Fail (apiError response) s3
            else
              match json response with
              | Some data => Done data s3
              | None => Fail SyntaxError s3
              end
        | Done None s2 => Fail TypeError s2
        | Fail e s2 => Fail e s2
        | Hang => Hang
        end
    | Fail e s1 => Fail e s1
    | Hang => Hang
    end.

(** What the replies hold: [response.shop] when it is truthy, and
    [response.products] when it can be spread into [push]. *)
Variable shopOf : Json -> option Json.
Variable productsOf : Json -> option (list Json).

(** [connect(storeUrl, apiKey)]; [None] is the [undefined] it returns when
    the reply holds no shop. *)
Definition connect (url key : jsstring) : Act (option Json) := fun s =>
  let '(api, net) := s in
  let api1 :=
    {| storeUrl := Some (normalizeStoreUrl url); apiKey := Some key;
       isConnected := isConnected api;
       rateLimitRemaining := rateLimitRemaining api;
       lastRequestTime := lastRequestTime api |} in
  match makeRequest (lit "/admin/api/2023-10/shop.json") None None
          (api1, net) with
  | Done response (api2, net2) =>
      if isNull response then Fail TypeError (api2, net2) else
      match shopOf response with
      | Some shop =>
          Done (Some shop)
            ({| storeUrl := storeUrl api2; apiKey := apiKey api2;
                isConnected := true;
                rateLimitRemaining := rateLimitRemaining api2;
                lastRequestTime := lastRequestTime api2 |}, net2)
      | None => Done None (api2, net2)
      end
  | Fail e s' => Fail e s'
  | Hang => Hang
  end.

(** [extractPageInfo(response)] *)
Definition extractPageInfo (response : Json) : option jsstring := None.

(** How [URLSearchParams] writes a value. *)
Variable formEncode : jsstring -> jsstring.

(** The endpoint of one page of [getProducts]. *)
Definition productsEndpoint (limit : nat) (pageInfo : option jsstring)
  : jsstring :=
  lit "/admin/api/2023-10/products.json?limit=" ++ decimal limit
  ++ lit "&fields=id%2Ctitle%2Chandle%2Cstatus%2Cupdated_at"
  ++ match pageInfo with
     | Some p => if truthy p then lit "&page_info=" ++ formEncode p else []
     | None => []
     end.

(** The [do { ... } while (pageInfo)] loop of [getProducts], with [fuel]
    iterations at most. *)
Fixpoint getProducts_loop (fuel : nat) (limit : nat)
    (products : list Json) (pageInfo : option jsstring)
  : Act (list Json) :=
  match fuel with
  | O => fun _ => Hang
  | S fuel' =>
      response ← makeRequest (productsEndpoint limit pageInfo) None None;
      match (if isNull response then None else productsOf response) with
      | None => fail TypeError
      | Some page =>
          let products' := products ++ page in
          let pageInfo' := extractPageInfo response in
          if truthy_opt pageInfo'
          then getProducts_loop fuel' limit products' pageInfo'
          else mret products'
      end
  end.

(** [getProducts(limit)] *)
Definition getProducts (fuel limit : nat) : Act (list Json) :=
  getProducts_loop fuel limit [] None.

(** [response.application_charges] when it is truthy. *)
Variable chargesOf : Json -> option Json.

(** [getInstalledApps()]: whatever its [try] block throws is answered with
    an empty list.  [None] is that new empty array, also given for a reply
    whose [application_charges] is falsy. *)
Definition getInstalledApps : Act (option Json) := fun s =>
  match makeRequest (lit "/admin/api/2023-10/application_charges.json")
          None None s with
  | Done response s' =>
      if isNull response then Done None s'
      else Done (chargesOf response) s'
  | Fail e s' => Done None s'
  | Hang => Hang
  end.

End Store.

Arguments ok {Json} _.
Arguments status {Json} _.
Arguments headers {Json} _.
Arguments json {Json} _.
Arguments url {Json} _.
Arguments method {Json} _.
Arguments accessToken {Json} _.
Arguments body {Json} _.
Arguments clockReads {Json} _.
Arguments sent {Json} _.
Arguments timers {Json} _.
Arguments Done {Json A} a s.
Arguments Fail {Json A} e s.
Arguments Hang {Json A}.
Arguments ending {Json A} r.
Arguments requestFor {Json} api endpoint optMethod optBody.

End StoreClient.

(** ** The product translation job (application script) *)

Module Jobs.
Import Dom TranslationService Apply ShopifyAPI StoreClient.

Section Job.
Variable Json : Type.
Variable clock : nat -> Z.
Variable respond : nat -> Request Json -> option (Response Json).
Variable Number : jsstring -> jsnum.
Variable isNull : Json -> bool.
Variable errorDetail : Json -> option jsstring.
Variable parseHTML : jsstring -> list node.
Variable serializeHTML : list node -> jsstring.
Variable upstream : nat -> FetchOutcome.
Variable page : Page.

(** [response.product] read as a record ([None] when the reply holds none),
    and the body [{ product: translatedData }] of an update. *)
Variable productOf : Json -> option StoreItem.
Variable productBody : StoreItem -> Json.

Definition productEndpoint (productId : jsstring) : jsstring :=
  lit "/admin/api/2023-10/products/" ++ productId ++ lit ".json".

(** [getProductForTranslation(productId)] *)
Definition getProductForTranslation (productId : jsstring)
  : Act Json (option StoreItem) := fun s =>
  match makeRequest Json clock respond Number isNull errorDetail
          (productEndpoint productId) None None s with
  | Done response s' =>
      if isNull response then Fail TypeError s'
      else Done (productOf response) s'
  | Fail e s' => Fail e s'
  | Hang => Hang
  end.

(** [updateProduct(productId, translatedData)] *)
Definition updateProduct (productId : jsstring) (translatedData : StoreItem)
  : Act Json (option StoreItem) := fun s =>
  match makeRequest Json clock respond Number isNull errorDetail
          (productEndpoint productId) (Some (lit "PUT"))
          (Some (productBody translatedData)) s with
  | Done response s' =>
      if isNull response then Fail TypeError s'
      else Done (productOf response) s'
  | Fail e s' => Fail e s'
  | Hang => Hang
  end.

(** What a job works with: the store client in its world, and the
    translation service in its own. *)
Record Desk := {
  store : Client * Net Json;
  service : TranslationService.state
}.

(** How the [try] block of a job ends: at its end, in its [catch], or
    never. *)
Inductive ended :=
| Completed
| Aborted (e : exn)
| Hung.

(** The [for] loop of [translateProducts] over the selected ids that are
    left.  A reply without product makes the job throw when it first reads
    a property of it (in [validateFieldsForTranslation], or in the log line
    after it), before anything else is sent. *)
Fixpoint translateProducts_loop (selectedFields : gmap string bool)
    (targetLanguage : jsstring) (selectedIds : list jsstring) (d : Desk)
  : ended * Desk :=
  match selectedIds with
  | [] => (Completed, d)
  | productId :: rest =>
      match getProductForTranslation productId (store d) with
      | Hang => (Hung, d)
      | Fail e s' => (Aborted e, {| store := s'; service := service d |})
      | Done None s' =>
          (Aborted TypeError, {| store := s'; service := service d |})
      | Done (Some product) s' =>
          let textsToTranslate :=
            validateFieldsForTranslation parseHTML product selectedFields
              "product" in
          if bool_decide (length textsToTranslate = 0) then
            translateProducts_loop selectedFields targetLanguage rest
              {| store := s'; service := service d |}
          else
            match batchTranslate upstream page textsToTranslate targetLanguage
                    (lit "product") (service d) with
            | Diverges => (Hung, {| store := s'; service := service d |})
            | Throws e t' => (Aborted e, {| store := s'; service := t' |})
            | Returns translatedTexts t' =>
                let updatedProduct :=
                  applyProductTranslations parseHTML serializeHTML product
                    translatedTexts selectedFields in
                match updateProduct productId updatedProduct s' with
                | Hang => (Hung, {| store := s'; service := t' |})
                | Fail e s'' =>
                    (Aborted e, {| store := s''; service := t' |})
                | Done _ s'' =>
                    translateProducts_loop selectedFields targetLanguage rest
                      {| store := s''; service := t' |}
                end
            end
      end
  end.

(** The requests that one selected product can leave in what was sent:
    none, the read of it, or the read followed by the write of some
    record. *)
Definition itemRequests (api : Client) (productId : jsstring)
    (block : list (Request Json)) : Prop :=
  block = []
  ∨ block = [requestFor api (productEndpoint productId) None None]
  ∨ ∃ data,
      block = [requestFor api (productEndpoint productId) None None;
               requestFor api (productEndpoint productId)
                 (Some (lit "PUT")) (Some (productBody data))].

(** [translateProducts()] once the form has been read: the guard of
    [validateTranslationRequest], then the loop. *)
Definition translateProducts (selectedFields : gmap string bool)
    (selectedIds : list jsstring) (targetLanguage : jsstring) (d : Desk)
  : list App.LogEntry * (option ended * Desk) :=
  App.translateSelected (option ended * Desk)
    (fun fields ids start =>
       let '(e, d') :=
         translateProducts_loop fields targetLanguage ids (snd start) in
       (Some e, d'))
    selectedFields selectedIds "products" (None, d).

End Job.

Arguments store {Json} _.
Arguments service {Json} _.

End Jobs.

(** ** A small store, for examples *)

Module Shop.
Import Dom TranslationService ShopifyAPI StoreClient Jobs Fixtures.

(** The bodies this store answers with and is sent. *)
Inductive Body :=
| ShopBody (name : jsstring)
| ProductBody (product : StoreItem)
| ProductsBody (products : list StoreItem).

Definition shirt : StoreItem :=
  {| id := 7; title := Some (lit "Blue Shirt");
     body_html := Some (lit "<p>Soft cotton</p>"); tags := None |}.

Definition productOf (data : Body) : option StoreItem :=
  match data with
  | ProductBody product => Some product
  | _ => None
  end.

Definition productsOf (data : Body) : option (list Body) :=
  match data with
  | ProductsBody products => Some (ProductBody <$> products)
  | _ => None
  end.

Definition isNull (data : Body) : bool := false.

Definition errorDetail (data : Body) : option jsstring := None.

Definition formEncode (s : jsstring) : jsstring := s.

(** A connected client, and a world in which nothing has happened. *)
Definition connected : Client :=
  {| storeUrl := Some (lit "demo.myshopify.com");
     apiKey := Some (lit "shpat-test"); isConnected := true;
     rateLimitRemaining := Num 40; lastRequestTime := 0 |}.

Definition quiet : Net Body :=
  {| clockReads := 0; sent := []; timers := [] |}.

(** A clock that has advanced by 300 ms at every reading. *)
Definition clock (k : nat) : Z := 5000 + 300 * Z.of_nat k.

(** Headers that report 39 of 40 calls used. *)
Definition busy : Headers :=
  {| get := fun name =>
       if String.eqb name "X-Shopify-Shop-Api-Call-Limit"
       then Some (lit "39/40") else None |}.

(** A store that answers a read with the shirt, a listing with the shirt
    alone, and a write with status 500 and no readable body. *)
Definition respond (k : nat) (request : Request Body)
  : option (Response Body) :=
  if bool_decide (method request = lit "PUT") then
    Some {| ok := false; status := 500; headers := busy; json := None |}
  else if includes (lit "products.json") (url request) then
    Some {| ok := true; status := 200; headers := busy;
            json := Some (ProductsBody [shirt]) |}
  else
    Some {| ok := true; status := 200; headers := busy;
            json := Some (ProductBody shirt) |}.

Definition makeRequest :=
  StoreClient.makeRequest Body clock respond decimalNumber isNull
    errorDetail.

(** Where the client stands after a first read of the shirt. *)
Definition afterRead : Client * Net Body :=
  default (connected, quiet)
    (ending (makeRequest (productEndpoint (lit "7")) None None
               (connected, quiet))).

(** The product job of this store, on a service that holds a key. *)
Definition loop :=
  translateProducts_loop Body clock respond decimalNumber isNull errorDetail
    Browser.parseHTML Browser.serializeHTML secondFails bare productOf
    ProductBody.

Definition titleOnly : gmap string bool := {[ "title"%string := true ]}.

Definition desk : Desk Body :=
  {| store := (connected, quiet); service := (keyed, fresh) |}.

(** The job on two selected products, the write of the first failing. *)
Definition run : ended * Desk Body :=
  loop titleOnly (lit "es") [lit "7"; lit "8"] desk.

(** A history of calls on a new service, and where it leaves it. *)
Definition history : list operation :=
  [ SetApiKey (Some (lit "sk-test"));
    BatchTranslate fiveItems (lit "es") (lit "product");
    ResetStats;
    MakeOpenAIRequest;
    MakeOpenAIRequest ].

Definition afterHistory : TranslationService.state :=
  default (TranslationService.constructor, fresh)
    (performAll secondFails bare history (TranslationService.constructor, fresh)).

End Shop.

(** * Properties *)

(** ** Batch partitioner *)

Module BatchFacts.
Import TranslationService.

Section Partition.
Context {A : Type}.
Implicit Types (texts : list A) (batches : list (list A)).

Lemma slice_window texts i b :
  slice i (i + b) texts = take b (drop i texts).
Proof. unfold slice. f_equal. lia. Qed.

Lemma slice_window_length texts i b :
  length (slice i (i + b) texts) = b `min` (length texts - i).
Proof. rewrite slice_window, length_take, length_drop. done. Qed.

(** Where the loop stands after [fuel] iterations at most: everything from
    [i] on has been cut into windows of [b]. *)
Lemma createBatches_loop_cuts texts b :
  1 ≤ b →
  ∀ fuel i batches,
    length texts - i ≤ fuel →
    ∃ rest,
      createBatches_loop fuel texts b i batches = Some (batches ++ rest)
      ∧ concat rest = drop i texts
      ∧ (length texts ≤ i → rest = [])
      ∧ Forall (λ batch, 1 ≤ length batch ≤ b) rest
      ∧ (∀ k batch, rest !! k = Some batch → S k < length rest →
                    length batch = b).
Proof.
  intros Hb fuel.
  induction fuel as [|fuel IH]; intros i batches Hfuel; simpl;
    case_bool_decide as Hi.
  - lia.
  - exists []. rewrite app_nil_r, drop_ge by lia. repeat split; auto.
    intros k batch Hk. by rewrite lookup_nil in Hk.
  - destruct (IH (i + b) (batches ++ [slice i (i + b) texts]))
      as (rest & Hrun & Hcat & Hend & Hlen & Hfull); [lia|].
    exists (slice i (i + b) texts :: rest).
    rewrite Hrun, <- app_assoc. simpl.
    split; [done|]. split; [|split; [lia|split]].
    + rewrite Hcat, slice_window, <- drop_drop.
      apply take_drop.
    + constructor; [|done]. rewrite slice_window_length. lia.
    + intros [|k] batch Hk Hlast; simpl in *.
      * injection Hk as <-. rewrite slice_window_length.
        destruct (decide (length texts ≤ i + b)) as [Hle|]; [|lia].
        rewrite (Hend Hle) in Hlast. simpl in Hlast. lia.
      * apply (Hfull k); [done|lia].
  - exists []. rewrite app_nil_r, drop_ge by lia. repeat split; auto.
    intros k batch Hk. by rewrite lookup_nil in Hk.
Qed.

(** More fuel never changes an answer. *)
Lemma createBatches_loop_more_fuel texts b fuel fuel' i batches result :
  createBatches_loop fuel texts b i batches = Some result →
  fuel ≤ fuel' →
  createBatches_loop fuel' texts b i batches = Some result.
Proof.
  revert fuel' i batches.
  induction fuel as [|fuel IH]; intros fuel' i batches; simpl;
    case_bool_decide as Hi; try done.
  - intros Hrun _. destruct fuel'; simpl; by rewrite bool_decide_false.
  - intros Hrun Hle. destruct fuel' as [|fuel']; [lia|]. simpl.
    rewrite bool_decide_true by done. apply IH; [done|lia].
  - intros Hrun _. destruct fuel'; simpl; by rewrite bool_decide_false.
Qed.

(** With a batch size of zero the loop never leaves a non-empty array,
    whatever the fuel. *)
Lemma createBatches_loop_zero texts fuel i batches :
  i < length texts →
  createBatches_loop fuel texts 0 i batches = None.
Proof.
  revert batches.
  induction fuel as [|fuel IH]; intros batches Hi; simpl;
    rewrite bool_decide_true by done; [done|].
  rewrite Nat.add_0_r. by apply IH.
Qed.

(** The empty array gives no batch, whatever the batch size. *)
Lemma createBatches_nil b : createBatches ([] : list A) b = Some [].
Proof. reflexivity. Qed.

(** C2. For every list of requests and every batch size of at least one,
    [createBatches] returns batches which, concatenated in order, are the
    list itself; every batch but the last has exactly the batch size (and
    none is empty or longer); the empty list gives no batch. *)
Theorem createBatches_partition texts b :
  1 ≤ b →
  ∃ batches,
    createBatches texts b = Some batches
    ∧ concat batches = texts
    ∧ (∀ k batch, batches !! k = Some batch → S k < length batches →
                  length batch = b)
    ∧ Forall (λ batch, 1 ≤ length batch ≤ b) batches
    ∧ (texts = [] → batches = []).
Proof.
  intros Hb.
  destruct (createBatches_loop_cuts texts b Hb (length texts) 0 [])
    as (rest & Hrun & Hcat & Hend & Hlen & Hfull); [lia|].
  exists rest. unfold createBatches. rewrite Hrun. simpl.
  repeat split; try done.
  intros ->. apply Hend. simpl. lia.
Qed.

End Partition.

Lemma createBatches_partition_witness :
  ∃ batches,
    createBatches [1; 2; 3; 4; 5] 2 = Some batches
    ∧ concat batches = [1; 2; 3; 4; 5]
    ∧ (∀ k batch, batches !! k = Some batch → S k < length batches →
                  length batch = 2)
    ∧ Forall (λ batch, 1 ≤ length batch ≤ 2) batches
    ∧ ([1; 2; 3; 4; 5] = [] → batches = []).
Proof. apply (createBatches_partition [1; 2; 3; 4; 5] 2). lia. Defined.

Example createBatches_25_by_10 :
  length <$> default [] (createBatches (seq 0 25) 10) = [10; 10; 5].
Proof. reflexivity. Qed.

Example createBatches_size_zero : createBatches [1; 2] 0 = None.
Proof. reflexivity. Qed.

End BatchFacts.

(** ** Strings *)

Module StringFacts.

Lemma truthy_true (s : jsstring) : truthy s = true ↔ s ≠ [].
Proof.
  unfold truthy. case_bool_decide; simpl; split; intros; congruence.
Qed.

Lemma truthy_false (s : jsstring) : truthy s = false ↔ s = [].
Proof.
  unfold truthy. case_bool_decide; simpl; split; intros; congruence.
Qed.

(** [trimStart] drops a run of white space and stops at the first code unit
    that is none. *)
Lemma trimStart_suffix (s : jsstring) :
  ∃ blanks, s = blanks ++ trimStart s
            ∧ Forall (λ c, isWhiteSpace c = true) blanks.
Proof.
  induction s as [|c s (blanks & Heq & Hblank)]; simpl.
  - by exists [].
  - destruct (isWhiteSpace c) eqn:Hc.
    + exists (c :: blanks). split; [by rewrite Heq at 1|by constructor].
    + by exists [].
Qed.

Lemma trimStart_head (s : jsstring) c rest :
  trimStart s = c :: rest → isWhiteSpace c = false.
Proof.
  induction s as [|d s IH]; simpl; [done|].
  destruct (isWhiteSpace d) eqn:Hd; [done|]. by intros [= <- _].
Qed.

Lemma trimStart_fixed (s : jsstring) c rest :
  s = c :: rest → isWhiteSpace c = false → trimStart s = s.
Proof. intros -> Hc. simpl. by rewrite Hc. Qed.

Lemma trimEnd_prefix (s : jsstring) :
  ∃ blanks, s = trimEnd s ++ blanks
            ∧ Forall (λ c, isWhiteSpace c = true) blanks.
Proof.
  unfold trimEnd.
  destruct (trimStart_suffix (reverse s)) as (blanks & Heq & Hblank).
  exists (reverse blanks). split.
  - rewrite <- reverse_app, <- Heq. by rewrite reverse_involutive.
  - by apply Forall_reverse.
Qed.

Lemma trimEnd_last (s body : jsstring) c :
  trimEnd s = body ++ [c] → isWhiteSpace c = false.
Proof.
  unfold trimEnd. intros Heq.
  apply (f_equal reverse) in Heq.
  rewrite reverse_involutive, reverse_app in Heq. simpl in Heq.
  by apply trimStart_head in Heq.
Qed.

(** What [trim] returns neither starts nor ends with white space. *)
Lemma trim_trimmed (s : jsstring) : trimmed (trim s).
Proof.
  unfold trim. split.
  - intros c rest Heq.
    destruct (trimEnd_prefix (trimStart s)) as (blanks & Hs & _).
    rewrite Heq in Hs. by apply trimStart_head in Hs.
  - intros body c Heq. by apply trimEnd_last in Heq.
Qed.

Lemma trim_nil : trim [] = [].
Proof. reflexivity. Qed.

(** A string made of white space only trims to the empty string. *)
Lemma trim_blank (s : jsstring) :
  Forall (λ c, isWhiteSpace c = true) s → trim s = [].
Proof.
  intros Hs. unfold trim.
  assert (trimStart s = []) as ->; [|done].
  induction Hs as [|c s Hc _ IH]; simpl; [done|]. by rewrite Hc.
Qed.

Lemma startsWith_prefix (p s : jsstring) :
  startsWith p s = true ↔ ∃ rest, s = p ++ rest.
Proof.
  revert s. induction p as [|a p IH]; intros s; simpl.
  - split; [by exists s|done].
  - destruct s as [|b s]; [split; [done|by intros (? & ?)]|].
    rewrite andb_true_iff, bool_decide_eq_true, IH. split.
    + intros (-> & rest & ->). by exists rest.
    + intros (rest & [= -> ->]). eauto.
Qed.

Lemma split_from_skip (sep pre rest cur : jsstring) :
  split_from sep (length pre) cur (pre ++ rest) = split_from sep 0 cur rest.
Proof.
  induction pre as [|c pre IH]; simpl; [|done].
  destruct rest; reflexivity.
Qed.

Lemma split_from_nonempty (sep : jsstring) skip cur s :
  split_from sep skip cur s ≠ [].
Proof.
  revert skip cur. induction s as [|c s IH]; intros skip cur; simpl; [done|].
  destruct skip; [|apply IH]. destruct (startsWith sep (c :: s)); [done|].
  apply IH.
Qed.

Lemma join_cons (sep p : jsstring) pieces :
  pieces ≠ [] → join sep (p :: pieces) = p ++ sep ++ join sep pieces.
Proof. by destruct pieces. Qed.

Lemma join_split_from (sep : jsstring) :
  sep ≠ [] →
  ∀ n s cur, length s ≤ n → join sep (split_from sep 0 cur s) = cur ++ s.
Proof.
  intros Hsep n. induction n as [|n IH]; intros s cur Hn.
  - destruct s; [|simpl in Hn; lia]. simpl. by rewrite app_nil_r.
  - destruct s as [|c s]; [simpl; by rewrite app_nil_r|].
    cbn [split_from]. destruct (startsWith sep (c :: s)) eqn:Hmatch.
    + apply startsWith_prefix in Hmatch as (rest & Hrest).
      destruct sep as [|a sep']; [done|]. injection Hrest as -> ->.
      assert (∀ x : N, length (x :: sep') - 1 = length sep') as ->
        by (intros; simpl; lia).
      rewrite split_from_skip.
      rewrite join_cons by apply split_from_nonempty.
      rewrite IH; [done|]. simpl in Hn. rewrite length_app in Hn. lia.
    + rewrite IH by (simpl in Hn; lia). by rewrite <- app_assoc.
Qed.

(** Joining the pieces of [s.split(sep)] with [sep] gives [s] back. *)
Lemma join_split (sep s : jsstring) : sep ≠ [] → join sep (split sep s) = s.
Proof. intros Hsep. by apply (join_split_from sep Hsep (length s)). Qed.

Lemma split_nonempty (sep s : jsstring) : split sep s ≠ [].
Proof. apply split_from_nonempty. Qed.

Lemma occursIn_longer (sep s before after : jsstring) :
  sep ≠ [] → s = before ++ sep ++ after → length before < length s.
Proof.
  intros Hsep ->. rewrite !length_app. destruct sep; [done|]. simpl. lia.
Qed.

(** While a piece is being read, the separator starts nowhere inside what
    has been read of it, and so it occurs in no finished piece. *)
Lemma split_from_pieces_free (sep : jsstring) :
  sep ≠ [] →
  ∀ n s cur,
    length s ≤ n →
    (∀ before after, cur ++ s = before ++ sep ++ after →
                     length cur ≤ length before) →
    Forall (λ piece, ¬ occursIn sep piece) (split_from sep 0 cur s).
Proof.
  intros Hsep n. induction n as [|n IH]; intros s cur Hn Hcur.
  - destruct s; [|simpl in Hn; lia]. simpl. constructor; [|done].
    intros (before & after & Heq).
    pose proof (occursIn_longer sep cur before after Hsep Heq).
    specialize (Hcur before after). rewrite app_nil_r in Hcur.
    specialize (Hcur Heq). lia.
  - destruct s as [|c s].
    { simpl. constructor; [|done]. intros (before & after & Heq).
      pose proof (occursIn_longer sep cur before after Hsep Heq).
      specialize (Hcur before after). rewrite app_nil_r in Hcur.
      specialize (Hcur Heq). lia. }
    cbn [split_from]. destruct (startsWith sep (c :: s)) eqn:Hmatch.
    + pose proof Hmatch as (rest & Hrest)%startsWith_prefix.
      constructor.
      * intros (before & after & Heq).
        pose proof (occursIn_longer sep cur before after Hsep Heq).
        assert (cur ++ c :: s = before ++ sep ++ after ++ c :: s) as Hwhole
          by (by rewrite Heq, <- !app_assoc).
        specialize (Hcur _ _ Hwhole). lia.
      * destruct sep as [|a sep']; [done|]. injection Hrest as -> ->.
        assert (∀ x : N, length (x :: sep') - 1 = length sep') as ->
          by (intros; simpl; lia).
        rewrite split_from_skip. apply IH.
        -- simpl in Hn. rewrite length_app in Hn. lia.
        -- intros. simpl. lia.
    + apply IH; [simpl in Hn; lia|].
      intros before after Heq. rewrite <- app_assoc in Heq. simpl in Heq.
      pose proof (Hcur before after Heq) as Hle.
      rewrite length_app. simpl.
      destruct (decide (length before = length cur)) as [Hsame|]; [|lia].
      apply app_inj_1 in Heq as [_ Heq]; [|done].
      assert (startsWith sep (c :: s) = true) as Hyes
        by (apply startsWith_prefix; eauto).
      congruence.
Qed.

(** The separator occurs in no piece of [s.split(sep)]. *)
Lemma split_pieces_free (sep s : jsstring) :
  sep ≠ [] → Forall (λ piece, ¬ occursIn sep piece) (split sep s).
Proof.
  intros Hsep. apply (split_from_pieces_free sep Hsep (length s)); [done|].
  intros. simpl. lia.
Qed.

Example split_two : split (lit "|||") (lit "a|||b") = [lit "a"; lit "b"].
Proof. reflexivity. Qed.

Example split_empty : split (lit "|||") [] = [[]].
Proof. reflexivity. Qed.

Example split_four_bars : split (lit "|||") (lit "||||") = [[]; lit "|"].
Proof. reflexivity. Qed.

Example trim_both : trim (lit "  a b ") = lit "a b".
Proof. reflexivity. Qed.

End StringFacts.

(** ** Prompt codec: decoding *)

Module CodecFacts.
Import TranslationService StringFacts.

Implicit Types (batch : list TextItem) (response : Completion).

Lemma orElse_piece (piece : option jsstring) (fallback t : jsstring) :
  piece = Some t → t ≠ [] → orElse piece fallback = t.
Proof. intros -> Ht. simpl. by apply truthy_true in Ht as ->. Qed.

Lemma orElse_missing (fallback : jsstring) : orElse None fallback = fallback.
Proof. reflexivity. Qed.

Lemma orElse_empty (fallback : jsstring) :
  orElse (Some []) fallback = fallback.
Proof. reflexivity. Qed.

Lemma orElse_nonempty (piece : option jsstring) (fallback : jsstring) :
  fallback ≠ [] → orElse piece fallback ≠ [].
Proof.
  intros Hf. destruct piece as [t|]; simpl; [|done].
  destruct (truthy t) eqn:Ht; [by apply truthy_true|done].
Qed.

Lemma zipTranslations_lookup (translations : list jsstring) batch i :
  zipTranslations translations batch !! i
  = (λ item, {| source := item;
                translatedText :=
                  orElse (translations !! i) (originalText item) |})
    <$> batch !! i.
Proof. unfold zipTranslations. by rewrite list_lookup_imap. Qed.

Lemma zipTranslations_length (translations : list jsstring) batch :
  length (zipTranslations translations batch) = length batch.
Proof. apply length_imap. Qed.

Lemma zipTranslations_source (translations : list jsstring) batch :
  source <$> zipTranslations translations batch = batch.
Proof.
  apply list_eq. intros i.
  rewrite list_lookup_fmap, zipTranslations_lookup.
  by destruct (batch !! i).
Qed.

(** Only the first [length batch] pieces are ever read. *)
Lemma zipTranslations_take (translations : list jsstring) batch :
  zipTranslations (take (length batch) translations) batch
  = zipTranslations translations batch.
Proof.
  apply list_eq. intros i. rewrite !zipTranslations_lookup.
  destruct (batch !! i) as [item|] eqn:Hi; [|done].
  apply lookup_lt_Some in Hi. by rewrite lookup_take_lt.
Qed.

Lemma withOriginal_source batch : source <$> (withOriginal <$> batch) = batch.
Proof. rewrite <- list_fmap_compose. apply list_fmap_id. Qed.

Lemma parseBatchResponse_decoded response batch text :
  responseContent response = inr text →
  parseBatchResponse response batch
  = zipTranslations (decodePieces text) batch.
Proof.
  intros H. unfold parseBatchResponse, parseBatchResponse_try. by rewrite H.
Qed.

Lemma parseBatchResponse_caught response batch e :
  responseContent response = inl e →
  parseBatchResponse response batch = withOriginal <$> batch.
Proof.
  intros H. unfold parseBatchResponse, parseBatchResponse_try. by rewrite H.
Qed.

Lemma parseBatchResponse_length response batch :
  length (parseBatchResponse response batch) = length batch.
Proof.
  destruct (responseContent response) as [e|text] eqn:H.
  - rewrite (parseBatchResponse_caught _ _ _ H). apply length_fmap.
  - rewrite (parseBatchResponse_decoded _ _ _ H).
    apply zipTranslations_length.
Qed.

Lemma parseBatchResponse_source response batch :
  source <$> parseBatchResponse response batch = batch.
Proof.
  destruct (responseContent response) as [e|text] eqn:H.
  - rewrite (parseBatchResponse_caught _ _ _ H). apply withOriginal_source.
  - rewrite (parseBatchResponse_decoded _ _ _ H).
    apply zipTranslations_source.
Qed.

Lemma decodePieces_trimmed (text : jsstring) :
  Forall trimmed (decodePieces text).
Proof.
  unfold decodePieces. apply Forall_fmap, Forall_forall.
  intros piece _. apply trim_trimmed.
Qed.

(** What the chain [response.choices[0].message.content] reads. *)
Lemma responseContent_read response choice rest m text :
  choices response = Some (choice :: rest) →
  message choice = Some m →
  content m = Some text →
  responseContent response = inr text.
Proof.
  unfold responseContent. intros -> Hmessage Hcontent. simpl.
  by rewrite Hmessage, Hcontent.
Qed.

Lemma responseContent_broken response :
  choices response = None
  ∨ choices response = Some []
  ∨ (∃ choice rest,
       choices response = Some (choice :: rest)
       ∧ (message choice = None
          ∨ ∃ m, message choice = Some m ∧ content m = None)) →
  responseContent response = inl TypeError.
Proof.
  unfold responseContent.
  intros [-> | [-> | (choice & rest & -> & [Hm | (m & Hm & Hc)])]];
    simpl; by rewrite ?Hm, ?Hc.
Qed.

(** C3. [parseBatchResponse] answers every batch and every reply with one
    result per request, in batch order.  When the reply holds a text (the
    content of the message of its first choice), the trimmed text is split
    on ["|||"] (joining what was split gives the trimmed text back, and no
    piece holds a delimiter); request [i] gets piece [i], trimmed, as its
    [translatedText], or its own [originalText] when that piece trims to
    nothing or is missing, so the entries past the last piece carry their
    [originalText]; the pieces past the batch size are never looked at: two
    replies that agree on the first [length batch] pieces are decoded
    alike.  A reply without such a text makes the [try] block throw and is
    answered with the original texts: the function itself never throws. *)
Theorem parseBatchResponse_decodes response batch :
  length (parseBatchResponse response batch) = length batch
  ∧ source <$> parseBatchResponse response batch = batch
  ∧ (∀ choice rest m text,
       choices response = Some (choice :: rest) →
       message choice = Some m →
       content m = Some text →
       let pieces := split DELIMITER (trim text) in
       join DELIMITER pieces = trim text
       ∧ Forall (λ piece, ¬ occursIn DELIMITER piece) pieces
       ∧ Forall (λ piece, trimmed (trim piece)) pieces
       ∧ (∀ i item piece,
            batch !! i = Some item → pieces !! i = Some piece →
            trim piece ≠ [] →
            parseBatchResponse response batch !! i
            = Some {| source := item; translatedText := trim piece |})
       ∧ (∀ i item piece,
            batch !! i = Some item → pieces !! i = Some piece →
            trim piece = [] →
            parseBatchResponse response batch !! i
            = Some {| source := item; translatedText := originalText item |})
       ∧ (∀ i item, batch !! i = Some item → length pieces ≤ i →
            parseBatchResponse response batch !! i
            = Some {| source := item; translatedText := originalText item |})
       ∧ (∀ response' choice' rest' m' text',
            choices response' = Some (choice' :: rest') →
            message choice' = Some m' →
            content m' = Some text' →
            take (length batch) (split DELIMITER (trim text'))
            = take (length batch) pieces →
            parseBatchResponse response' batch
            = parseBatchResponse response batch))
  ∧ (choices response = None
     ∨ choices response = Some []
     ∨ (∃ choice rest,
          choices response = Some (choice :: rest)
          ∧ (message choice = None
             ∨ ∃ m, message choice = Some m ∧ content m = None)) →
     parseBatchResponse response batch = withOriginal <$> batch).
Proof.
  split; [apply parseBatchResponse_length|].
  split; [apply parseBatchResponse_source|].
  split.
  - intros choice rest m text Hchoices Hmessage Hcontent pieces.
    pose proof (responseContent_read _ _ _ _ _ Hchoices Hmessage Hcontent)
      as Htext.
    rewrite (parseBatchResponse_decoded _ _ _ Htext).
    subst pieces. unfold decodePieces.
    split; [by apply join_split|].
    split; [by apply split_pieces_free|].
    split; [apply Forall_forall; intros piece _; apply trim_trimmed|].
    split; [|split; [|split]].
    + intros i item piece Hi Hpiece Hfull.
      rewrite zipTranslations_lookup, Hi, list_lookup_fmap, Hpiece. simpl.
      by rewrite (proj2 (truthy_true _) Hfull).
    + intros i item piece Hi Hpiece Hblank.
      rewrite zipTranslations_lookup, Hi, list_lookup_fmap, Hpiece. simpl.
      by rewrite Hblank.
    + intros i item Hi Hmissing.
      rewrite zipTranslations_lookup, Hi, list_lookup_fmap. simpl.
      by rewrite (lookup_ge_None_2 _ i Hmissing).
    + intros response' choice' rest' m' text' Hchoices' Hmessage' Hcontent'
        Hsame.
      rewrite (parseBatchResponse_decoded response' batch text')
        by by eapply responseContent_read.
      unfold decodePieces.
      rewrite <- (zipTranslations_take (trim <$> split _ (trim text'))).
      rewrite <- (zipTranslations_take (trim <$> split _ (trim text))).
      by rewrite <- !fmap_take, Hsame.
  - intros Hbroken.
    by apply (parseBatchResponse_caught _ _ TypeError),
         responseContent_broken.
Qed.

(** C10. Whatever the reply, a piece that trims to the empty string is
    replaced by the request's own text, wherever it stands among the pieces,
    and no request with a non-empty [originalText] ever gets an empty
    [translatedText]. *)
Theorem parseBatchResponse_never_empty response batch :
  (∀ text i item piece,
     responseContent response = inr text →
     batch !! i = Some item →
     split DELIMITER (trim text) !! i = Some piece →
     trim piece = [] →
     parseBatchResponse response batch !! i = Some (withOriginal item))
  ∧ (∀ r, r ∈ parseBatchResponse response batch →
          originalText (source r) ≠ [] → translatedText r ≠ []).
Proof.
  split.
  - intros text i item piece Htext Hi Hpiece Hblank.
    rewrite (parseBatchResponse_decoded _ _ _ Htext).
    rewrite zipTranslations_lookup, Hi. unfold decodePieces.
    by rewrite list_lookup_fmap, Hpiece; simpl; rewrite Hblank.
  - intros r Hr Hsrc.
    destruct (responseContent response) as [e|text] eqn:H.
    + rewrite (parseBatchResponse_caught _ _ _ H) in Hr.
      apply list_elem_of_fmap in Hr as (item & -> & _). done.
    + rewrite (parseBatchResponse_decoded _ _ _ H) in Hr.
      apply list_elem_of_lookup in Hr as (i & Hi).
      rewrite zipTranslations_lookup in Hi.
      destruct (batch !! i) as [item|]; [|done].
      injection Hi as <-. simpl in *. by apply orElse_nonempty.
Qed.

Import Fixtures.

Lemma parseBatchResponse_decodes_witness :
  parseBatchResponse (reply "Camisa Azul ||| camisa, azul" 30)
    [titleItem; tagsItem] !! 1
  = Some {| source := tagsItem; translatedText := lit "camisa, azul" |}.
Proof.
  destruct (parseBatchResponse_decodes
              (reply "Camisa Azul ||| camisa, azul" 30)
              [titleItem; tagsItem]) as (_ & _ & Hread & _).
  destruct (Hread _ _ _ (lit "Camisa Azul ||| camisa, azul")
              eq_refl eq_refl eq_refl)
    as (_ & _ & _ & Hpiece & _).
  by apply (Hpiece 1 tagsItem (lit " camisa, azul")).
Defined.

Lemma parseBatchResponse_never_empty_witness :
  parseBatchResponse (reply "uno|||  |||tres" 30)
    [titleItem; tagsItem; titleItem] !! 1
  = Some (withOriginal tagsItem).
Proof.
  exact (proj1 (parseBatchResponse_never_empty (reply "uno|||  |||tres" 30)
                  [titleItem; tagsItem; titleItem])
               (lit "uno|||  |||tres") 1 tagsItem (lit "  ")
               eq_refl eq_refl eq_refl eq_refl).
Defined.

Example parseBatchResponse_exact :
  parseBatchResponse (reply "Camisa Azul ||| camisa, azul" 30)
    [titleItem; tagsItem]
  = [ {| source := titleItem; translatedText := lit "Camisa Azul" |};
      {| source := tagsItem; translatedText := lit "camisa, azul" |} ].
Proof. reflexivity. Qed.

Example parseBatchResponse_adjacent_delimiters :
  parseBatchResponse (reply "uno||||||tres|||cuatro" 30)
    [titleItem; tagsItem; titleItem]
  = [ {| source := titleItem; translatedText := lit "uno" |};
      withOriginal tagsItem;
      {| source := titleItem; translatedText := lit "tres" |} ].
Proof. reflexivity. Qed.

Example parseBatchResponse_no_choice :
  parseBatchResponse_try emptyReply [titleItem; tagsItem] = inl TypeError
  ∧ parseBatchResponse emptyReply [titleItem; tagsItem]
    = [withOriginal titleItem; withOriginal tagsItem].
Proof. split; reflexivity. Qed.

End CodecFacts.

(** ** Translation orchestrator and usage counter *)

Module ServiceFacts.
Import TranslationService Accounting StringFacts CodecFacts.

Lemma usage_le_refl s : usage_le s s.
Proof. split; lia. Qed.

Lemma usage_le_trans s1 s2 s3 : usage_le s1 s2 → usage_le s2 s3 → usage_le s1 s3.
Proof. intros [] []. split; lia. Qed.

#[local] Hint Resolve usage_le_refl : core.

Lemma batchResults_length reply batch :
  length (batchResults reply batch) = length batch.
Proof.
  destruct reply; simpl; [|apply length_fmap].
  apply parseBatchResponse_length.
Qed.




Ltac run_monad :=
  unfold batchTranslate_attempt, try_catch, translateBatch, makeOpenAIRequest,
    trackUsage, callPage, assign, this, fetch, delay, throw, mbind, mret,
    M_bind, M_ret;
  simpl.

Lemma answersFrom_length upstream first n :
  length (answersFrom upstream first n) = n.
Proof. revert first. induction n as [|n IH]; intros first; simpl; auto. Qed.

Lemma answersFrom_lookup upstream first n j :
  j < n → answersFrom upstream first n !! j = Some (upstream (first + j)).
Proof.
  revert first j. induction n as [|n IH]; intros first j Hj; [lia|].
  destruct j as [|j]; simpl.
  - by rewrite Nat.add_0_r.
  - rewrite IH by lia. do 2 f_equal. lia.
Qed.

Lemma counted_settings svc answer :
  apiKey (counted svc answer) = apiKey svc
  ∧ batchSize (counted svc answer) = batchSize svc
  ∧ maxTokensPerRequest (counted svc answer) = maxTokensPerRequest svc.
Proof. unfold counted. by destruct (usageOf answer). Qed.

Lemma counted_all_settings answers : ∀ svc,
  apiKey (foldl counted svc answers) = apiKey svc
  ∧ batchSize (foldl counted svc answers) = batchSize svc
  ∧ maxTokensPerRequest (foldl counted svc answers)
    = maxTokensPerRequest svc.
Proof.
  induction answers as [|a answers IH]; intros svc; simpl; [done|].
  destruct (IH (counted svc a)) as (-> & -> & ->). apply counted_settings.
Qed.

Lemma counted_all_usage answers : ∀ svc w w',
  usage_le (svc, w) (foldl counted svc answers, w').
Proof.
  induction answers as [|a answers IH]; intros svc w w'.
  - split; simpl; lia.
  - cbn [foldl]. apply (usage_le_trans _ (counted svc a, w)); [|apply IH].
    unfold counted. destruct (usageOf a); split; simpl; lia.
Qed.

Section Run.
Variable upstream : nat → FetchOutcome.
Variable page : Page.

(** One request with the key set: what has been counted when it ends, and
    how it ends. *)
Lemma makeOpenAIRequest_run svc w :
  truthy_opt (apiKey svc) = true →
  ∃ e,
    makeOpenAIRequest upstream page (svc, w)
    = match delivered page (fetchCount w) (upstream (fetchCount w)) with
      | Some data =>
          Returns data
            (counted svc (upstream (fetchCount w)),
             {| fetchCount := S (fetchCount w); delays := delays w |})
      | None =>
          Throws e
            (counted svc (upstream (fetchCount w)),
             {| fetchCount := S (fetchCount w); delays := delays w |})
      end.
Proof.
  intros Hkey. run_monad. rewrite Hkey. simpl.
  destruct svc, w; simpl in *.
  unfold delivered, counted, usageOf, returnsAt.
  destruct (upstream fetchCount0) as [| | | |data]; simpl;
    try (by eexists).
  destruct (usage data); simpl; [|by exists TypeError].
  rewrite Nat.sub_0_r.
  destruct (updateTokenCount page) as [f|]; [|by exists TypeError].
  destruct (f fetchCount0); [by exists TypeError|by eexists].
Qed.

(** One request: the state it ends in. *)
Lemma makeOpenAIRequest_final svc w :
  final (makeOpenAIRequest upstream page (svc, w))
  = Some (if truthy_opt (apiKey svc)
          then (counted svc (upstream (fetchCount w)),
                {| fetchCount := S (fetchCount w); delays := delays w |})
          else (svc, w)).
Proof.
  destruct (truthy_opt (apiKey svc)) eqn:Hkey.
  - destruct (makeOpenAIRequest_run svc w Hkey) as [e ->].
    by destruct (delivered _ _ _).
  - run_monad. by rewrite Hkey.
Qed.

(** One request: the counters never go down, whichever way it ends. *)
Lemma makeOpenAIRequest_usage s s' :
  final (makeOpenAIRequest upstream page s) = Some s' → usage_le s s'.
Proof.
  destruct s as [svc w]. rewrite makeOpenAIRequest_final.
  destruct (truthy_opt (apiKey svc)); intros [= <-]; [|apply usage_le_refl].
  apply (counted_all_usage [upstream (fetchCount w)]).
Qed.

(** One pass through the [try] statement of the loop, with the key set:
    what it appends and the state it leaves. *)
Lemma batchTranslate_attempt_state batch i total lang ctx results svc w :
  truthy_opt (apiKey svc) = true →
  batchTranslate_attempt upstream page batch i total lang ctx results (svc, w)
  = Returns
      (results ++ appended page (fetchCount w) (upstream (fetchCount w)) batch)
      (counted svc (upstream (fetchCount w)),
       {| fetchCount := S (fetchCount w);
          delays :=
            delays w
            ++ pacing page [upstream (fetchCount w)] (fetchCount w) i total |}).
Proof.
  intros Hkey.
  unfold batchTranslate_attempt, try_catch, translateBatch.
  unfold mbind, M_bind, mret, M_ret.
  destruct (makeOpenAIRequest_run svc w Hkey) as [e ->].
  unfold appended, pacing, unhindered.
  destruct (delivered page (fetchCount w) (upstream (fetchCount w)))
    as [data|]; [|by rewrite !app_nil_r].
  unfold callPage, returnsAt, delay.
  cbn [snd fst fetchCount delays].
  replace (S (fetchCount w) - 1) with (fetchCount w) by lia.
  destruct (updateProgress page) as [f|];
    [destruct (f (fetchCount w))|];
    cbn [andb]; try case_bool_decide; cbn [fst snd fetchCount delays];
    by rewrite ?app_nil_r, ?app_assoc.
Qed.

Lemma batchTranslate_loop_state lang ctx total batches :
  ∀ i results svc w,
    truthy_opt (apiKey svc) = true →
    batchTranslate_loop upstream page batches i total lang ctx results
      (svc, w)
    = Returns
        (results
         ++ concat (imap (λ j batch,
                            appended page (fetchCount w + j)
                              (upstream (fetchCount w + j)) batch)
                         batches))
        (foldl counted svc
           (answersFrom upstream (fetchCount w) (length batches)),
         {| fetchCount := fetchCount w + length batches;
            delays :=
              delays w
              ++ pacing page
                   (answersFrom upstream (fetchCount w) (length batches))
                   (fetchCount w) i total |}).
Proof.
  induction batches as [|batch batches IH]; intros i results svc w Hkey.
  - simpl. rewrite !app_nil_r, Nat.add_0_r. by destruct w.
  - cbn [batchTranslate_loop]. unfold mbind, M_bind at 1.
    rewrite batchTranslate_attempt_state by done.
    rewrite IH by (by destruct (counted_settings svc
                                  (upstream (fetchCount w))) as (-> & _)).
    cbn [fetchCount delays length answersFrom foldl pacing].
    f_equal.
    + rewrite imap_cons. simpl. rewrite <- app_assoc, Nat.add_0_r.
      do 2 f_equal. f_equal. apply imap_ext. intros j b _. simpl.
      by replace (S (fetchCount w + j)) with (fetchCount w + S j) by lia.
    + f_equal. f_equal; [lia|]. rewrite <- app_assoc. f_equal.
      by rewrite app_nil_r.
Qed.

(** Where a batch translation that ends leaves the service: some number of
    requests were made, and their answers counted. *)
Lemma batchTranslate_final texts lang ctx svc w s' :
  final (batchTranslate upstream page texts lang ctx (svc, w)) = Some s' →
  ∃ n ds,
    s' = (foldl counted svc (answersFrom upstream (fetchCount w) n),
          {| fetchCount := fetchCount w + n; delays := ds |}).
Proof.
  assert (∃ n ds,
            (svc, w)
            = (foldl counted svc (answersFrom upstream (fetchCount w) n),
               {| fetchCount := fetchCount w + n; delays := ds |}))
    as Hnone.
  { exists 0, (delays w). simpl. rewrite Nat.add_0_r. by destruct w. }
  unfold batchTranslate, this, mbind, M_bind at 1. simpl.
  destruct (truthy_opt (apiKey svc)) eqn:Hkey; simpl;
    [|by intros [= <-]].
  destruct texts as [|item texts]; [by intros [= <-]|].
  destruct (createBatches (item :: texts) (batchSize svc)) as [batches|];
    [|done].
  rewrite batchTranslate_loop_state by done. intros [= <-].
  by eexists _, _.
Qed.

Lemma final_discard {A} (m : M A) s :
  final ((_ ← m; mret tt) s) = final (m s).
Proof. unfold mbind, M_bind, mret, M_ret. by destruct (m s). Qed.

Lemma batchTranslate_usage texts lang ctx s s' :
  final (batchTranslate upstream page texts lang ctx s) = Some s' →
  usage_le s s'.
Proof.
  destruct s as [svc w].
  intros (n & ds & ->)%batchTranslate_final. apply counted_all_usage.
Qed.

(** No method assigns [batchSize]: it stays what the constructor made it. *)
Lemma makeOpenAIRequest_batchSize s s' :
  final (makeOpenAIRequest upstream page s) = Some s' →
  batchSize (fst s') = batchSize (fst s).
Proof.
  destruct s as [svc w]. rewrite makeOpenAIRequest_final.
  destruct (truthy_opt (apiKey svc)); intros [= <-]; [|done].
  apply counted_settings.
Qed.

Lemma batchTranslate_batchSize texts lang ctx s s' :
  final (batchTranslate upstream page texts lang ctx s) = Some s' →
  batchSize (fst s') = batchSize (fst s).
Proof.
  destruct s as [svc w].
  intros (n & ds & ->)%batchTranslate_final. apply counted_all_settings.
Qed.

Lemma perform_batchSize op s s' :
  final (perform upstream page op s) = Some s' →
  batchSize (fst s') = batchSize (fst s).
Proof.
  destruct op; cbn [perform]; try (simpl; by intros [= <-]).
  - rewrite final_discard. apply batchTranslate_batchSize.
  - rewrite final_discard. unfold translateBatch.
    intros H. apply makeOpenAIRequest_batchSize.
    revert H. unfold mbind, M_bind, mret, M_ret.
    by destruct (makeOpenAIRequest upstream page s).
  - rewrite final_discard. apply makeOpenAIRequest_batchSize.
Qed.

(** Whatever was called on a service since it was constructed, its batch
    size is 10. *)
Lemma performAll_batchSize ops :
  ∀ s s', performAll upstream page ops s = Some s' →
          batchSize (fst s') = batchSize (fst s).
Proof.
  induction ops as [|op ops IH]; intros s s'; simpl.
  - by intros [= <-].
  - destruct (final (perform upstream page op s)) as [s1|] eqn:Hs1; [|done].
    intros Hrest. rewrite (IH _ _ Hrest). by apply (perform_batchSize op).
Qed.

Lemma constructed_batchSize ops w s' :
  performAll upstream page ops (constructor, w) = Some s' →
  batchSize (fst s') = 10.
Proof. intros H. by rewrite (performAll_batchSize _ _ _ H). Qed.

(** A call of any method but [resetStats] leaves the counters at least where
    they were. *)
Lemma perform_usage op s s' :
  op ≠ ResetStats →
  final (perform upstream page op s) = Some s' → usage_le s s'.
Proof.
  intros Hop. destruct op; cbn [perform]; try done;
    try (simpl; intros [= <-]; split; simpl; lia).
  - rewrite final_discard. apply batchTranslate_usage.
  - rewrite final_discard. unfold translateBatch.
    intros H. apply makeOpenAIRequest_usage.
    revert H. unfold mbind, M_bind, mret, M_ret.
    by destruct (makeOpenAIRequest upstream page s).
  - rewrite final_discard. apply makeOpenAIRequest_usage.
Qed.

Lemma performAll_usage ops :
  Forall (λ op, op ≠ ResetStats) ops →
  ∀ s s', performAll upstream page ops s = Some s' → usage_le s s'.
Proof.
  induction 1 as [|op ops Hop _ IH]; intros s s'; simpl.
  - intros [= <-]. apply usage_le_refl.
  - destruct (final (perform upstream page op s)) as [s1|] eqn:Hs1; [|done].
    intros Hrest. eapply usage_le_trans; [by eapply perform_usage|by apply IH].
Qed.


(** C8. A call of any method of the service other than [resetStats] leaves
    [totalTokensUsed] and [requestCount] at least as large as it found them,
    whether it returns or throws (so neither goes back to zero once
    positive); [resetStats] returns with both at zero. *)
Theorem usage_counters_monotone op s :
  (op ≠ ResetStats →
   ∀ s', final (perform upstream page op s) = Some s' →
     (totalTokensUsed (fst s) ≤ totalTokensUsed (fst s'))%N
     ∧ (requestCount (fst s) ≤ requestCount (fst s'))%N
     ∧ ((0 < totalTokensUsed (fst s))%N → (0 < totalTokensUsed (fst s'))%N)
     ∧ ((0 < requestCount (fst s))%N → (0 < requestCount (fst s'))%N))
  ∧ (∃ s0, perform upstream page ResetStats s = Returns tt s0
           ∧ totalTokensUsed (fst s0) = 0%N
           ∧ requestCount (fst s0) = 0%N).
Proof.
  split.
  - intros Hop s' Hs'. destruct (perform_usage op s s' Hop Hs') as [Ht Hr].
    repeat split; try done; lia.
  - by eexists.
Qed.

End Run.

Import Fixtures.


(** Three batches, the second of which fails: the first and the third are
    translated, the second keeps its texts, and the counters saw two
    replies. *)
Example batchTranslate_second_batch_fails :
  batchTranslate secondFails bare fiveItems (lit "es") (lit "product")
    (keyedByTwo, fresh)
  = Returns
      [ {| source := plainItem "title" "one"; translatedText := lit "uno" |};
        {| source := plainItem "title" "two"; translatedText := lit "dos" |};
        withOriginal (plainItem "title" "three");
        withOriginal (plainItem "title" "four");
        {| source := plainItem "title" "five";
           translatedText := lit "cinco" |} ]
      ({| apiKey := Some (lit "sk-test"); totalTokensUsed := 42%N;
          requestCount := 2%N; batchSize := 2;
          maxTokensPerRequest := 3000%N |},
       {| fetchCount := 3; delays := [1000%N] |}).
Proof. vm_compute. reflexivity. Qed.

(** The same call on a page whose progress callback throws: the requests
    of the batches that were translated come back twice, once translated
    and once with their own text, and no delay is awaited. *)
Example batchTranslate_progress_throws :
  batchTranslate secondFails
    {| updateProgress := Some (λ _, CallbackThrows TypeError);
       updateTokenCount := None |}
    fiveItems (lit "es") (lit "product") (keyedByTwo, fresh)
  = Returns
      [ {| source := plainItem "title" "one"; translatedText := lit "uno" |};
        {| source := plainItem "title" "two"; translatedText := lit "dos" |};
        withOriginal (plainItem "title" "one");
        withOriginal (plainItem "title" "two");
        withOriginal (plainItem "title" "three");
        withOriginal (plainItem "title" "four");
        {| source := plainItem "title" "five";
           translatedText := lit "cinco" |};
        withOriginal (plainItem "title" "five") ]
      ({| apiKey := Some (lit "sk-test"); totalTokensUsed := 42%N;
          requestCount := 2%N; batchSize := 2;
          maxTokensPerRequest := 3000%N |},
       {| fetchCount := 3; delays := [] |}).
Proof. vm_compute. reflexivity. Qed.

(** On a page whose token callback throws, a reply with a usage block is
    counted and then lost: its batch keeps its own texts. *)
Example batchTranslate_token_callback_throws :
  batchTranslate secondFails broken fiveItems (lit "es") (lit "product")
    (keyedByTwo, fresh)
  = Returns (withOriginal <$> fiveItems)
      ({| apiKey := Some (lit "sk-test"); totalTokensUsed := 42%N;
          requestCount := 2%N; batchSize := 2;
          maxTokensPerRequest := 3000%N |},
       {| fetchCount := 3; delays := [] |}).
Proof. vm_compute. reflexivity. Qed.

Example batchTranslate_without_key :
  batchTranslate secondFails bare fiveItems (lit "es") (lit "product")
    (constructor, fresh)
  = Throws (Error (lit "OpenAI API key not set")) (constructor, fresh).
Proof. reflexivity. Qed.

Lemma usage_counters_monotone_witness :
  (totalTokensUsed keyed ≤ 12)%N ∧ (requestCount keyed ≤ 1)%N.
Proof.
  destruct (proj1 (usage_counters_monotone (λ _, JsonData (reply "hola" 12))
                     bare MakeOpenAIRequest (keyed, fresh))
              ltac:(discriminate)
              ({| apiKey := Some (lit "sk-test"); totalTokensUsed := 12%N;
                  requestCount := 1%N; batchSize := 10;
                  maxTokensPerRequest := 3000%N |},
               {| fetchCount := 1; delays := [] |})
              eq_refl) as (Htokens & Hcount & _).
  split; [exact Htokens|exact Hcount].
Defined.

Example makeOpenAIRequest_counts :
  makeOpenAIRequest (λ _, JsonData (reply "hola" 12)) bare (keyed, fresh)
  = Returns (reply "hola" 12)
      ({| apiKey := Some (lit "sk-test"); totalTokensUsed := 12%N;
          requestCount := 1%N; batchSize := 10;
          maxTokensPerRequest := 3000%N |},
       {| fetchCount := 1; delays := [] |}).
Proof. reflexivity. Qed.

End ServiceFacts.

(** ** Document fragments *)

Module DomFacts.
Import Dom.

(** Induction on a node with the property at hand for all its children. *)
Lemma node_forest_ind (P : node → Prop) :
  (∀ v, P (Text v)) →
  (∀ d, P (Comment d)) →
  (∀ t a cs, Forall P cs → P (Element t a cs)) →
  ∀ n, P n.
Proof.
  intros HText HComment HElement. fix IH 1.
  intros [v|d|t a cs]; [apply HText|apply HComment|].
  apply HElement. induction cs as [|c cs IHcs]; constructor;
    [apply IH|apply IHcs].
Qed.

Lemma mapTexts_Element f start t a cs :
  mapTexts f start (Element t a cs) = Element t a (mapForestTexts f start cs).
Proof.
  simpl. f_equal. revert start.
  induction cs as [|c cs IH]; intros start; simpl; [done|]. by rewrite IH.
Qed.

Lemma forestTexts_cons n ns :
  forestTexts (n :: ns) = textValues n ++ forestTexts ns.
Proof. reflexivity. Qed.

Lemma forestTexts_mapped ns :
  Forall (λ n, ∀ f start,
            textValues (mapTexts f start n)
            = imap (λ i v, f (start + i) v) (textValues n)) ns →
  ∀ f start,
    forestTexts (mapForestTexts f start ns)
    = imap (λ i v, f (start + i) v) (forestTexts ns).
Proof.
  induction 1 as [|n ns Hn _ IH]; intros f start; [done|].
  cbn [mapForestTexts]. rewrite !forestTexts_cons, imap_app, Hn, IH.
  f_equal. apply imap_ext. intros i v _. simpl. f_equal. lia.
Qed.

Lemma textValues_mapTexts n :
  ∀ f start,
    textValues (mapTexts f start n)
    = imap (λ i v, f (start + i) v) (textValues n).
Proof.
  induction n as [v|d|t a cs IH] using node_forest_ind; intros f start.
  - simpl. by rewrite Nat.add_0_r.
  - done.
  - rewrite mapTexts_Element. apply (forestTexts_mapped cs IH).
Qed.

(** The text nodes of a rewritten fragment, in document order. *)
Lemma forestTexts_mapForestTexts f start ns :
  forestTexts (mapForestTexts f start ns)
  = imap (λ i v, f (start + i) v) (forestTexts ns).
Proof.
  apply forestTexts_mapped, Forall_forall. intros n _.
  apply textValues_mapTexts.
Qed.

Lemma imap_replace {A} (k : nat) (x : A) (l : list A) :
  imap (λ i old, if bool_decide (i = k) then x else old) l = <[k:=x]> l.
Proof.
  apply list_eq. intros i. rewrite list_lookup_imap.
  destruct (decide (i = k)) as [->|Hne].
  - rewrite bool_decide_true by done.
    destruct (l !! k) eqn:Hk; simpl.
    + by rewrite list_lookup_insert_eq by by eapply lookup_lt_Some.
    + rewrite list_insert_ge; [by rewrite Hk|by apply lookup_ge_None].
  - rewrite list_lookup_insert_ne by done.
    destruct (l !! i); simpl; [|done]. by rewrite bool_decide_false.
Qed.

(** Assigning [nodeValue] on the [k]-th text node changes that text node
    and no other. *)
Lemma forestTexts_setNodeValue k v ns :
  forestTexts (setNodeValue k v ns) = <[k:=v]> (forestTexts ns).
Proof.
  unfold setNodeValue. rewrite forestTexts_mapForestTexts. apply imap_replace.
Qed.

Lemma mapForestTexts_recomposes ns :
  Forall (λ n, ∀ f g start,
            mapTexts f start (mapTexts g start n)
            = mapTexts (λ i v, f i (g i v)) start n) ns →
  ∀ f g start,
    mapForestTexts f start (mapForestTexts g start ns)
    = mapForestTexts (λ i v, f i (g i v)) start ns.
Proof.
  induction 1 as [|n ns Hn _ IH]; intros f g start; [done|].
  cbn [mapForestTexts]. rewrite Hn. f_equal.
  rewrite textValues_mapTexts, length_imap. apply IH.
Qed.

Lemma mapTexts_mapTexts n :
  ∀ f g start,
    mapTexts f start (mapTexts g start n)
    = mapTexts (λ i v, f i (g i v)) start n.
Proof.
  induction n as [v|d|t a cs IH] using node_forest_ind; intros f g start;
    try done.
  rewrite !mapTexts_Element. f_equal.
  apply (mapForestTexts_recomposes cs IH).
Qed.

(** ... and leaves the markup structure as it was. *)
Lemma skeleton_setNodeValue k v ns :
  skeleton (setNodeValue k v ns) = skeleton ns.
Proof.
  unfold skeleton, setNodeValue.
  rewrite (mapForestTexts_recomposes ns); [done|].
  apply Forall_forall. intros n _. apply mapTexts_mapTexts.
Qed.

End DomFacts.

(** ** Field extractor and HTML bridge *)

Module HtmlFacts.
Import Dom TranslationService StringFacts DomFacts.

Lemma elem_of_nonBlankFrom (values : list jsstring) :
  ∀ start k,
    k ∈ nonBlankFrom start values
    ↔ ∃ v, start ≤ k ∧ values !! (k - start) = Some v ∧ trim v ≠ [].
Proof.
  induction values as [|v values IH]; intros start k; simpl.
  - split; [by intros ?%elem_of_nil|by intros (? & _ & ? & _)].
  - assert (k ∈ nonBlankFrom (S start) values
            ↔ ∃ u, start < k ∧ values !! (k - S start) = Some u
                   ∧ trim u ≠ []) as Hrest.
    { rewrite IH. split; intros (u & ? & ? & ?); exists u; split; auto; lia. }
    assert (∀ u, start < k →
              (v :: values) !! (k - start) = Some u
              ↔ values !! (k - S start) = Some u) as Hshift.
    { intros u Hk. replace (k - start) with (S (k - S start)) by lia. done. }
    destruct (truthy (trim v)) eqn:Hv.
    + apply truthy_true in Hv. rewrite elem_of_cons, Hrest. split.
      * intros [->|(u & Hk & Hu & Hblank)].
        -- exists v. rewrite Nat.sub_diag. auto.
        -- exists u. rewrite Hshift by done. split; [lia|done].
      * intros (u & Hk & Hu & Hblank).
        destruct (decide (k = start)) as [->|]; [by left|right].
        exists u. rewrite <- Hshift by lia. split; [lia|done].
    + apply truthy_false in Hv. rewrite Hrest. split.
      * intros (u & Hk & Hu & Hblank). exists u.
        rewrite Hshift by done. split; [lia|done].
      * intros (u & Hk & Hu & Hblank).
        destruct (decide (k = start)) as [->|].
        -- rewrite Nat.sub_diag in Hu. injection Hu as <-. done.
        -- exists u. rewrite <- Hshift by lia. split; [lia|done].
Qed.

Lemma length_nonBlankFrom (values : list jsstring) start :
  length (nonBlankFrom start values)
  = length (filter (λ v, trim v ≠ []) values).
Proof.
  revert start. induction values as [|v values IH]; intros start; [done|].
  simpl. rewrite filter_cons. destruct (truthy (trim v)) eqn:Hv.
  - apply truthy_true in Hv. rewrite decide_True by done. simpl. by rewrite IH.
  - apply truthy_false in Hv. rewrite decide_False by (by intros ?). apply IH.
Qed.

(** [textNodes] holds the text nodes whose value is not blank, no others. *)
Lemma elem_of_textNodes (div : list node) k :
  k ∈ textNodes div ↔ ∃ v, forestTexts div !! k = Some v ∧ trim v ≠ [].
Proof.
  unfold textNodes. rewrite elem_of_nonBlankFrom, Nat.sub_0_r.
  split; [intros (v & _ & ?); eauto|intros (v & ?); exists v; split; [lia|done]].
Qed.

Section Bridge.
Variable parseHTML : jsstring → list node.
Variable serializeHTML : list node → jsstring.

(** C5, as the code has it.  [restoreHTML] returns the serialisation of the
    fragment [originalHTML] parses to.  [textNodes] counts its text nodes
    that are not blank; when there is exactly one, its value is replaced by
    [translatedText] as it is, every other text node and the markup
    structure staying as parsed; when there are none or several, the
    fragment is serialised as parsed, whatever [translatedText] is. *)
Theorem restoreHTML_single_text_node originalHTML translatedText :
  let div := parseHTML originalHTML in
  length (textNodes div)
  = length (filter (λ v, trim v ≠ []) (forestTexts div))
  ∧ (length (textNodes div) = 1 →
     ∃ k v div',
       forestTexts div !! k = Some v ∧ trim v ≠ []
       ∧ (∀ j u, j ≠ k → forestTexts div !! j = Some u → trim u = [])
       ∧ restoreHTML parseHTML serializeHTML originalHTML translatedText
         = serializeHTML div'
       ∧ forestTexts div' = <[k:=translatedText]> (forestTexts div)
       ∧ forestTexts div' !! k = Some translatedText
       ∧ skeleton div' = skeleton div)
  ∧ (length (textNodes div) ≠ 1 →
     restoreHTML parseHTML serializeHTML originalHTML translatedText
     = serializeHTML div).
Proof.
  intros div. split; [apply length_nonBlankFrom|]. split.
  - intros Hone.
    destruct (textNodes div) as [|k [|? ?]] eqn:Hnodes; try done.
    assert (k ∈ textNodes div) as Hk by (rewrite Hnodes; set_solver).
    apply elem_of_textNodes in Hk as (v & Hv & Hblank).
    exists k, v, (setNodeValue k translatedText div).
    split; [done|]. split; [done|]. split; [|split; [|split; [|split]]].
    + intros j u Hj Hu.
      destruct (decide (trim u = [])) as [|Hu']; [done|].
      assert (j ∈ textNodes div) as Hin
        by (apply elem_of_textNodes; eauto).
      rewrite Hnodes in Hin. by apply list_elem_of_singleton in Hin.
    + unfold restoreHTML, restoredFragment. fold div. by rewrite Hnodes.
    + apply forestTexts_setNodeValue.
    + rewrite forestTexts_setNodeValue.
      apply list_lookup_insert_eq. by eapply lookup_lt_Some.
    + apply skeleton_setNodeValue.
  - intros Hcount. unfold restoreHTML, restoredFragment. fold div.
    by destruct (textNodes div) as [|k [|? ?]].
Qed.

(** What the extractor does guarantee: a request never has the empty string
    as its text, and the text of an HTML-bearing request is not blank. *)
Lemma plainText_nonempty name flag value item r :
  r ∈ plainText name flag value item →
  originalText r ≠ [] ∧ hasHTML r = false.
Proof.
  unfold plainText. destruct value as [text|]; [|by intros ?%elem_of_nil].
  destruct flag; simpl; [|by intros ?%elem_of_nil].
  destruct (truthy text) eqn:Ht; [|by intros ?%elem_of_nil].
  intros ->%list_elem_of_singleton. simpl. split; [by apply truthy_true|done].
Qed.

Lemma htmlText_not_blank name flag item r :
  r ∈ htmlText parseHTML name flag item →
  trim (originalText r) ≠ [] ∧ originalText r ≠ [].
Proof.
  unfold htmlText. destruct (body_html item) as [html|];
    [|by intros ?%elem_of_nil].
  destruct flag; simpl; [|by intros ?%elem_of_nil].
  destruct (truthy html); [|by intros ?%elem_of_nil].
  destruct (truthy (trim (stripHTML parseHTML html))) eqn:Ht;
    [|by intros ?%elem_of_nil].
  intros ->%list_elem_of_singleton. simpl. apply truthy_true in Ht.
  split; [done|]. by intros Heq; rewrite Heq in Ht.
Qed.

Lemma validateFieldsForTranslation_guarantees item selectedFields itemType r :
  r ∈ validateFieldsForTranslation parseHTML item selectedFields itemType →
  originalText r ≠ []
  ∧ (hasHTML r = true → trim (originalText r) ≠ []).
Proof.
  unfold validateFieldsForTranslation.
  destruct (String.eqb itemType "product");
    [|destruct (String.eqb itemType "collection");
      [|destruct (String.eqb itemType "page"); [|by intros ?%elem_of_nil]]];
    rewrite ?elem_of_app; intros Hr; destruct_or! Hr;
    first [ apply plainText_nonempty in Hr as [? Hplain]; split; [done|];
            by rewrite Hplain
          | apply htmlText_not_blank in Hr as [? ?]; by split ].
Qed.

(** C4 at a record whose title is three spaces: the request is emitted, and
    its text is blank. *)
Theorem validateFieldsForTranslation_blank_title :
  validateFieldsForTranslation parseHTML
    {| id := 7; title := Some (lit "   "); body_html := None; tags := None |}
    {[ "title"%string := true ]} "product"
  = [ {| field := "title"; originalText := lit "   "; itemId := 7;
         hasHTML := false; originalHTML := None |} ]
  ∧ trim (lit "   ") = [].
Proof. split; reflexivity. Qed.

End Bridge.

(** The degraded mode is no identity on the markup: two paragraphs written
    with capital tag names come back in lower case, and an element left open
    comes back closed, although nothing was replaced. *)
Lemma restoreHTML_not_byte_for_byte :
  Browser.parseFragment (lit "<P>a</P><P>b</P>")
  = Some [ Element (lit "p") [] [Text (lit "a")];
           Element (lit "p") [] [Text (lit "b")] ]
  ∧ textNodes (Browser.parseHTML (lit "<P>a</P><P>b</P>")) = [0; 1]
  ∧ restoreHTML Browser.parseHTML Browser.serializeHTML
      (lit "<P>a</P><P>b</P>") (lit "x")
    = lit "<p>a</p><p>b</p>"
  ∧ lit "<p>a</p><p>b</p>" ≠ lit "<P>a</P><P>b</P>"
  ∧ restoreHTML Browser.parseHTML Browser.serializeHTML
      (lit "<div>a<span>b") (lit "x")
    = lit "<div>a<span>b</span></div>".
Proof. repeat split; try reflexivity. discriminate. Qed.

Lemma restoreHTML_single_text_node_witness :
  ∃ k v div',
    forestTexts (Browser.parseHTML (lit "<p>Soft cotton</p>")) !! k = Some v
    ∧ trim v ≠ []
    ∧ (∀ j u, j ≠ k →
         forestTexts (Browser.parseHTML (lit "<p>Soft cotton</p>")) !! j
         = Some u → trim u = [])
    ∧ restoreHTML Browser.parseHTML Browser.serializeHTML
        (lit "<p>Soft cotton</p>") (lit "Algodon suave")
      = Browser.serializeHTML div'
    ∧ forestTexts div'
      = <[k:=lit "Algodon suave"]>
          (forestTexts (Browser.parseHTML (lit "<p>Soft cotton</p>")))
    ∧ forestTexts div' !! k = Some (lit "Algodon suave")
    ∧ skeleton div'
      = skeleton (Browser.parseHTML (lit "<p>Soft cotton</p>")).
Proof.
  exact (proj1 (proj2 (restoreHTML_single_text_node Browser.parseHTML
                         Browser.serializeHTML (lit "<p>Soft cotton</p>")
                         (lit "Algodon suave")))
               eq_refl).
Defined.

Example restoreHTML_paragraph :
  restoreHTML Browser.parseHTML Browser.serializeHTML
    (lit "<p>Soft cotton</p>") (lit "Algodon suave")
  = lit "<p>Algodon suave</p>".
Proof. reflexivity. Qed.

(** The text goes into the node as it is; it is the serialiser that then
    writes its [&] as a character reference. *)
Example restoreHTML_escapes :
  restoreHTML Browser.parseHTML Browser.serializeHTML
    (lit "<p>Salt and pepper</p>") (lit "Sal & pimienta")
  = lit "<p>Sal &amp; pimienta</p>".
Proof. reflexivity. Qed.

Example stripHTML_paragraph :
  stripHTML Browser.parseHTML (lit "<p>Soft cotton</p>") = lit "Soft cotton".
Proof. reflexivity. Qed.

Example validateFieldsForTranslation_blue_shirt :
  validateFieldsForTranslation Browser.parseHTML
    {| id := 7; title := Some (lit "Blue Shirt");
       body_html := Some (lit "<p>Soft cotton</p>"); tags := None |}
    {[ "title"%string := true; "description"%string := true ]} "product"
  = [ {| field := "title"; originalText := lit "Blue Shirt"; itemId := 7;
         hasHTML := false; originalHTML := None |};
      {| field := "description"; originalText := lit "Soft cotton";
         itemId := 7; hasHTML := true;
         originalHTML := Some (lit "<p>Soft cotton</p>") |} ].
Proof. reflexivity. Qed.

End HtmlFacts.

(** ** Rate governor *)

Module RateFacts.
Import ShopifyAPI StringFacts.

Lemma lessOrEqual_true (a b : jsnum) :
  lessOrEqual a b = true ↔ ∃ x y, a = Num x ∧ b = Num y ∧ (x ≤ y)%Z.
Proof.
  destruct a as [|x], b as [|y]; simpl;
    try (split; [done|by intros (? & ? & ? & ? & ?)]).
  rewrite Z.leb_le. split; [by eauto|].
  by intros (? & ? & [= <-] & [= <-] & ?).
Qed.

(** C6. [waitForRateLimit] suspends the caller exactly when
    [rateLimitRemaining] is a number of at most two and less than 1000 ms
    have passed since [lastRequestTime]; it then waits for what is left of
    the 1000 ms, a positive time.  In every other state it does not wait.
    Either way it only stamps [lastRequestTime]. *)
Theorem waitForRateLimit_pacing (api : Client) (now resumed : Z) :
  let elapsed := (now - lastRequestTime api)%Z in
  let nearLimit := ∃ r, rateLimitRemaining api = Num r ∧ (r ≤ 2)%Z in
  (is_Some (fst (waitForRateLimit api now resumed))
   ↔ nearLimit ∧ (elapsed < 1000)%Z)
  ∧ (nearLimit ∧ (elapsed < 1000)%Z →
     fst (waitForRateLimit api now resumed) = Some (1000 - elapsed)%Z
     ∧ (0 < 1000 - elapsed)%Z)
  ∧ (¬ (nearLimit ∧ (elapsed < 1000)%Z) →
     fst (waitForRateLimit api now resumed) = None)
  ∧ snd (waitForRateLimit api now resumed)
    = {| storeUrl := storeUrl api; apiKey := apiKey api;
         isConnected := isConnected api;
         rateLimitRemaining := rateLimitRemaining api;
         lastRequestTime := resumed |}.
Proof.
  intros elapsed nearLimit.
  assert (lessOrEqual (rateLimitRemaining api) (Num 2)
          && (elapsed <? 1000)%Z = true
          ↔ nearLimit ∧ (elapsed < 1000)%Z) as Hguard.
  { rewrite andb_true_iff, lessOrEqual_true, Z.ltb_lt. unfold nearLimit.
    split.
    - intros [(x & y & Hx & [= <-] & Hle) Hlt]. eauto.
    - intros [(r & Hr & Hle) Hlt]. eauto 6. }
  unfold waitForRateLimit. fold elapsed. simpl.
  destruct (lessOrEqual (rateLimitRemaining api) (Num 2)
            && (elapsed <? 1000)%Z) eqn:Hg.
  - assert (nearLimit ∧ (elapsed < 1000)%Z) as Hyes by by apply Hguard.
    split; [split; [done|by eauto]|].
    split; [intros _; split; [done|lia]|].
    split; [by intros Hno|done].
  - assert (¬ (nearLimit ∧ (elapsed < 1000)%Z)) as Hno.
    { intros H. apply Hguard in H. done. }
    split; [split; [by intros [? ?]|done]|].
    split; [done|]. by split.
Qed.

Lemma waitForRateLimit_pacing_witness :
  fst (waitForRateLimit
         {| storeUrl := None; apiKey := None; isConnected := true;
            rateLimitRemaining := Num 2; lastRequestTime := 5000 |}
         5400 6000)
  = Some (1000 - (5400 - 5000))%Z
  ∧ (0 < 1000 - (5400 - 5000))%Z.
Proof.
  refine (proj1 (proj2 (waitForRateLimit_pacing
                          {| storeUrl := None; apiKey := None;
                             isConnected := true;
                             rateLimitRemaining := Num 2;
                             lastRequestTime := 5000 |} 5400 6000)) _).
  split; [exists 2%Z; split; [reflexivity|lia]|simpl; lia].
Defined.

Example waitForRateLimit_near_limit :
  waitForRateLimit
    {| storeUrl := None; apiKey := None; isConnected := true;
       rateLimitRemaining := Num 2; lastRequestTime := 5000 |} 5400 6000
  = (Some 600%Z,
     {| storeUrl := None; apiKey := None; isConnected := true;
        rateLimitRemaining := Num 2; lastRequestTime := 6000 |}).
Proof. reflexivity. Qed.

Example waitForRateLimit_fresh_client :
  fst (waitForRateLimit constructor 100 100) = None.
Proof. reflexivity. Qed.

(** [s.split("/")] on two pieces that hold no ["/"]. *)
Lemma split_from_free (c : N) (s cur : jsstring) :
  c ∉ s → split_from [c] 0 cur s = [cur ++ s].
Proof.
  revert cur. induction s as [|x s IH]; intros cur Hs; simpl.
  - by rewrite app_nil_r.
  - apply not_elem_of_cons in Hs as [Hx Hs].
    rewrite bool_decide_false by done. simpl.
    rewrite IH by done. by rewrite <- app_assoc.
Qed.

Lemma split_two_pieces (c : N) (u t : jsstring) :
  c ∉ u → c ∉ t → split [c] (u ++ c :: t) = [u; t].
Proof.
  intros Hu Ht. unfold split.
  enough (∀ cur, split_from [c] 0 cur (u ++ c :: t) = [cur ++ u; t]) as H
    by apply (H []).
  induction u as [|x u IH]; intros cur; simpl.
  - rewrite bool_decide_true by done. simpl.
    rewrite app_nil_r. f_equal.
    destruct t as [|y t]; [done|]. by apply (split_from_free c (y :: t) []).
  - apply not_elem_of_cons in Hu as [Hx Hu].
    rewrite bool_decide_false by done. simpl.
    rewrite IH by done. by rewrite <- app_assoc.
Qed.

Lemma digits_no_slash (s : jsstring) :
  forallb isDigit s = true → 47%N ∉ s.
Proof.
  intros Hs Hin. apply list_elem_of_In in Hin.
  rewrite forallb_forall in Hs. by apply Hs in Hin.
Qed.

Lemma decimalNumber_digits (s : jsstring) :
  forallb isDigit s = true → decimalNumber s = Num (digitsValue s).
Proof. intros Hs. unfold decimalNumber. by rewrite Hs. Qed.

(** C7. [updateRateLimit] is defined on every response.  Without the
    call-limit header, or with an empty one, it returns the client as it
    was.  With the header it sets [rateLimitRemaining] to the second of its
    ["/"]-separated numbers minus the first and touches no other field; for
    a header ["used/total"] of two decimal counters this is
    [total - used]. *)
Theorem updateRateLimit_frame (Number : jsstring → jsnum) (api : Client)
    (headers : Headers) :
  (get headers "X-Shopify-Shop-Api-Call-Limit" = None
   ∨ get headers "X-Shopify-Shop-Api-Call-Limit" = Some [] →
   updateRateLimit Number api headers = api)
  ∧ (∀ remaining,
       get headers "X-Shopify-Shop-Api-Call-Limit" = Some remaining →
       remaining ≠ [] →
       let numbers := Number <$> split (lit "/") remaining in
       updateRateLimit Number api headers
       = {| storeUrl := storeUrl api; apiKey := apiKey api;
            isConnected := isConnected api;
            rateLimitRemaining := minus (numbers !! 1) (numbers !! 0);
            lastRequestTime := lastRequestTime api |})
  ∧ (∀ used total,
       forallb isDigit used = true →
       forallb isDigit total = true →
       get headers "X-Shopify-Shop-Api-Call-Limit"
       = Some (used ++ lit "/" ++ total) →
       updateRateLimit decimalNumber api headers
       = {| storeUrl := storeUrl api; apiKey := apiKey api;
            isConnected := isConnected api;
            rateLimitRemaining := Num (digitsValue total - digitsValue used);
            lastRequestTime := lastRequestTime api |}).
Proof.
  unfold updateRateLimit. split; [|split].
  - by intros [-> | ->].
  - intros remaining -> Hne.
    apply truthy_true in Hne. by rewrite Hne.
  - intros used total Hused Htotal ->.
    assert (truthy (used ++ lit "/" ++ total) = true) as ->.
    { apply truthy_true. by destruct used. }
    change (lit "/") with [47%N]. simpl app.
    rewrite split_two_pieces by by apply digits_no_slash.
    simpl. by rewrite !decimalNumber_digits.
Qed.

Lemma updateRateLimit_frame_witness :
  updateRateLimit decimalNumber constructor
    {| get := λ _, Some (lit "32/40") |}
  = {| storeUrl := None; apiKey := None; isConnected := false;
       rateLimitRemaining := Num 8; lastRequestTime := 0 |}.
Proof.
  exact (proj2 (proj2 (updateRateLimit_frame decimalNumber constructor
                         {| get := λ _, Some (lit "32/40") |}))
               (lit "32") (lit "40") eq_refl eq_refl eq_refl).
Defined.

Example updateRateLimit_without_slash :
  rateLimitRemaining
    (updateRateLimit decimalNumber constructor {| get := λ _, Some (lit "5") |})
  = NaN.
Proof. reflexivity. Qed.

End RateFacts.

(** ** Pre-flight validation *)

Module AppFacts.
Import App.

Lemma some_flag_set (selectedFields : gmap string bool) :
  existsb (λ field, field) (snd <$> map_to_list selectedFields) = true
  ↔ ∃ name, selectedFields !! name = Some true.
Proof.
  rewrite existsb_exists. split.
  - intros (flag & Hin & ->).
    apply list_elem_of_In, list_elem_of_fmap in Hin as ([name flag] & -> & Hin).
    apply elem_of_map_to_list in Hin. by exists name.
  - intros (name & Hname). exists true. split; [|done].
    apply list_elem_of_In, list_elem_of_fmap. exists (name, true).
    split; [done|]. by apply elem_of_map_to_list.
Qed.

(** C9. [validateTranslationRequest] accepts exactly when some field flag is
    true and some item is selected.  When it rejects, it logs one error, and
    the translation job behind it is not started: the network is left as it
    was.  When it accepts, it logs nothing. *)
Theorem validateTranslationRequest_guard (selectedFields : gmap string bool)
    (selectedIds : list jsstring) (itemType : string) :
  let verdict := validateTranslationRequest selectedFields selectedIds itemType in
  (fst verdict = true
   ↔ (∃ name, selectedFields !! name = Some true) ∧ selectedIds ≠ [])
  ∧ (fst verdict = true → snd verdict = [])
  ∧ (fst verdict = false →
     (∃ message, snd verdict = [ {| severity := error; text := message |} ])
     ∧ ∀ Network (job : gmap string bool → list jsstring → Network → Network)
         (net : Network),
         translateSelected Network job selectedFields selectedIds itemType net
         = (snd verdict, net)).
Proof.
  intros verdict. subst verdict.
  unfold translateSelected, validateTranslationRequest.
  pose proof (some_flag_set selectedFields) as Hflag.
  destruct (existsb _ _); simpl.
  - assert (∃ name, selectedFields !! name = Some true) as Hsome
      by by apply Hflag.
    case_bool_decide as Hids; simpl.
    + apply length_zero_iff_nil in Hids as ->.
      repeat split; try done; [by intros [_ ?]|eauto].
    + assert (selectedIds ≠ []) by (by intros ->).
      repeat split; try done.
  - assert (¬ ∃ name, selectedFields !! name = Some true) as Hnone.
    { intros H. by apply Hflag in H. }
    repeat split; try done; [by intros [? _]|eauto].
Qed.

Lemma validateTranslationRequest_guard_witness :
  (∃ message,
     snd (validateTranslationRequest {[ "title"%string := false ]}
            [lit "101"] "products")
     = [ {| severity := error; text := message |} ])
  ∧ ∀ Network (job : gmap string bool → list jsstring → Network → Network)
      (net : Network),
      translateSelected Network job {[ "title"%string := false ]}
        [lit "101"] "products" net
      = (snd (validateTranslationRequest {[ "title"%string := false ]}
                [lit "101"] "products"), net).
Proof.
  exact (proj2 (proj2 (validateTranslationRequest_guard
                         {[ "title"%string := false ]} [lit "101"] "products"))
               eq_refl).
Defined.

Example validateTranslationRequest_no_items :
  validateTranslationRequest {[ "title"%string := true ]} [] "products"
  = (false,
     [ {| severity := error;
          text := "Please select at least one product to translate" |} ]).
Proof. reflexivity. Qed.

Example validateTranslationRequest_accepts :
  validateTranslationRequest
    {[ "title"%string := false; "tags"%string := true ]} [lit "101"] "products"
  = (true, []).
Proof. reflexivity. Qed.

End AppFacts.

(** ** The course of a batch translation: requests, counters, delays *)

Module AccountingFacts.
Import TranslationService Accounting StringFacts CodecFacts ServiceFacts.

Lemma sumN_cons x l : sumN (x :: l) = (x + sumN l)%N.
Proof. reflexivity. Qed.

Lemma counted_all_tokens answers : ∀ svc,
  totalTokensUsed (foldl counted svc answers)
  = (totalTokensUsed svc + sumN (tokensOf <$> answers))%N.
Proof.
  induction answers as [|a answers IH]; intros svc.
  - simpl. unfold sumN. simpl. lia.
  - cbn [foldl]. rewrite IH, fmap_cons, sumN_cons. unfold counted, tokensOf.
    destruct (usageOf a); simpl; lia.
Qed.

Lemma counted_all_requests answers : ∀ svc,
  requestCount (foldl counted svc answers)
  = (requestCount svc
     + N.of_nat (length (filter (λ a, is_Some (usageOf a)) answers)))%N.
Proof.
  induction answers as [|a answers IH]; intros svc; [simpl; lia|].
  cbn [foldl]. rewrite IH, filter_cons. unfold counted.
  destruct (usageOf a) as [u|].
  - rewrite decide_True by eauto. cbn [requestCount length]. lia.
  - rewrite decide_False by (by intros [? ?]). done.
Qed.

(** The delays of a whole run: one after each batch but the last on which
    the [try] block ran to its end. *)
Lemma pacing_closed upstream page n : ∀ first i total,
  i + n = total →
  pacing page (answersFrom upstream first n) first i total
  = replicate (length (filter (λ k, unhindered page k (upstream k) = true)
                         (seq first (n - 1)))) 1000%N.
Proof.
  induction n as [|n IH]; intros first i total Htotal; [done|].
  destruct n as [|n].
  - simpl. rewrite bool_decide_false by lia. by rewrite andb_false_r.
  - cbn [answersFrom pacing] in *.
    rewrite (IH (S first) (S i) total) by lia.
    rewrite bool_decide_true by lia. rewrite andb_true_r.
    replace (S (S n) - 1) with (S (S n - 1)) by lia.
    cbn [seq]. rewrite filter_cons.
    destruct (unhindered page first (upstream first)).
    + by rewrite decide_True.
    + by rewrite decide_False.
Qed.

(** A list cut into windows of [b], the last one possibly shorter, has
    [batchCount] windows. *)
Lemma cut_count {A} (b : nat) (cuts : list (list A)) :
  1 ≤ b →
  Forall (λ batch, 1 ≤ length batch ≤ b) cuts →
  (∀ k batch, cuts !! k = Some batch → S k < length cuts →
              length batch = b) →
  length cuts = batchCount (length (concat cuts)) b.
Proof.
  intros Hb. unfold batchCount.
  induction cuts as [|batch cuts IH]; intros Hall Hfull.
  - simpl. symmetry. apply Nat.div_small. lia.
  - apply Forall_cons in Hall as [Hbatch Hall].
    cbn [concat length]. rewrite length_app.
    destruct cuts as [|batch' cuts].
    + simpl. rewrite Nat.add_0_r.
      apply (Nat.div_unique _ _ _ (length batch - 1)); lia.
    + rewrite (Hfull 0 batch eq_refl) by (simpl; lia).
      rewrite IH; [|done|].
      * replace (b + length (concat (batch' :: cuts)) + b - 1)
          with (1 * b + (length (concat (batch' :: cuts)) + b - 1)) by lia.
        rewrite Nat.div_add_l by lia. lia.
      * intros k c Hk Hlen. apply (Hfull (S k) c Hk). simpl in *. lia.
Qed.

Lemma createBatches_count {A} (texts : list A) (b : nat) :
  1 ≤ b →
  ∃ batches,
    createBatches texts b = Some batches
    ∧ length batches = batchCount (length texts) b.
Proof.
  intros Hb.
  destruct (BatchFacts.createBatches_loop_cuts texts b Hb (length texts) 0
              []) as (batches & Hbatches & Hcat & _ & Hall & Hfull); [lia|].
  exists batches. split; [done|].
  rewrite (cut_count b batches Hb Hall Hfull). by rewrite Hcat.
Qed.

Section Run.
Variable upstream : nat → FetchOutcome.
Variable page : Page.

(** A batch translation with the key set, from its first request to its
    last: what it returns and the state it leaves. *)
Lemma batchTranslate_state texts lang ctx svc w :
  texts ≠ [] →
  truthy_opt (apiKey svc) = true →
  1 ≤ batchSize svc →
  ∃ batches,
    createBatches texts (batchSize svc) = Some batches
    ∧ length batches = batchCount (length texts) (batchSize svc)
    ∧ batchTranslate upstream page texts lang ctx (svc, w)
      = Returns
          (concat (imap (λ j batch,
                           appended page (fetchCount w + j)
                             (upstream (fetchCount w + j)) batch)
                        batches))
          (foldl counted svc
             (answersFrom upstream (fetchCount w) (length batches)),
           {| fetchCount := fetchCount w + length batches;
              delays :=
                delays w
                ++ pacing page
                     (answersFrom upstream (fetchCount w) (length batches))
                     (fetchCount w) 0 (length batches) |}).
Proof.
  intros Htexts Hkey Hsize.
  destruct (createBatches_count texts (batchSize svc) Hsize)
    as (batches & Hbatches & Hcount).
  exists batches. split; [done|]. split; [done|].
  unfold batchTranslate, this, mbind, M_bind. simpl. rewrite Hkey. simpl.
  destruct texts; [done|]. rewrite Hbatches.
  by rewrite batchTranslate_loop_state.
Qed.

(** With a key set and a batch size of at least one, a batch translation
    returns after one request per batch, whatever the endpoint answers and
    whatever the callbacks of the page do, and it has added to the counters
    exactly what the answers report: the tokens of every usage block, and
    one request for each answer that has one.  An answer without usage
    block, an HTTP error or a network failure counts for nothing, and no
    other field of the service changes.  The counters are taken to stay
    within the counts that a double holds exactly. *)
Theorem batchTranslate_accounting texts lang ctx svc w :
  texts ≠ [] →
  truthy_opt (apiKey svc) = true →
  1 ≤ batchSize svc →
  let requests := batchCount (length texts) (batchSize svc) in
  let answers := answersFrom upstream (fetchCount w) requests in
  (totalTokensUsed svc + sumN (tokensOf <$> answers) < countBound)%N →
  (requestCount svc + N.of_nat requests < countBound)%N →
  (∀ j, j < requests → answers !! j = Some (upstream (fetchCount w + j)))
  ∧ ∃ results svc' w',
      batchTranslate upstream page texts lang ctx (svc, w)
      = Returns results (svc', w')
      ∧ fetchCount w' = fetchCount w + requests
      ∧ totalTokensUsed svc'
        = (totalTokensUsed svc + sumN (tokensOf <$> answers))%N
      ∧ requestCount svc'
        = (requestCount svc
           + N.of_nat (length (filter (λ a, is_Some (usageOf a)) answers)))%N
      ∧ apiKey svc' = apiKey svc
      ∧ batchSize svc' = batchSize svc
      ∧ maxTokensPerRequest svc' = maxTokensPerRequest svc.
Proof.
  intros Htexts Hkey Hsize requests answers _ _.
  split; [intros j Hj; by apply answersFrom_lookup|].
  destruct (batchTranslate_state texts lang ctx svc w Htexts Hkey Hsize)
    as (batches & _ & Hcount & Hrun).
  rewrite Hcount in Hrun. fold requests in Hrun. fold answers in Hrun.
  eexists _, _, _. split; [exact Hrun|]. simpl.
  destruct (counted_all_settings answers svc) as (? & ? & ?).
  split; [done|]. split; [apply counted_all_tokens|].
  split; [apply counted_all_requests|]. done.
Qed.

(** With a key set and a batch size of at least one, a batch translation
    awaits a delay of 1000 ms after every batch but the last on which the
    [try] block ran to its end, that is, whose request was answered with a
    JSON body and after which neither callback of the page threw; it
    awaits none after a batch that ended in the [catch] block. *)
Theorem batchTranslate_pacing texts lang ctx svc w :
  texts ≠ [] →
  truthy_opt (apiKey svc) = true →
  1 ≤ batchSize svc →
  ∃ results svc' w',
    batchTranslate upstream page texts lang ctx (svc, w)
    = Returns results (svc', w')
    ∧ delays w'
      = delays w
        ++ replicate
             (length
                (filter (λ k, unhindered page k (upstream k) = true)
                   (seq (fetchCount w)
                      (batchCount (length texts) (batchSize svc) - 1))))
             1000%N.
Proof.
  intros Htexts Hkey Hsize.
  destruct (batchTranslate_state texts lang ctx svc w Htexts Hkey Hsize)
    as (batches & _ & Hcount & Hrun).
  eexists _, _, _. split; [exact Hrun|]. simpl.
  rewrite pacing_closed by done. by rewrite Hcount.
Qed.

Lemma counted_accountable sent svc w answers :
  accountable sent (svc, w) →
  accountable sent
    (foldl counted svc answers,
     {| fetchCount := fetchCount w + length answers; delays := delays w |}).
Proof.
  revert svc w.
  induction answers as [|a answers IH]; intros svc w Hacc.
  - simpl. rewrite Nat.add_0_r. by destruct w.
  - cbn [foldl length].
    replace (fetchCount w + S (length answers))
      with (fetchCount {| fetchCount := S (fetchCount w);
                          delays := delays w |} + length answers)
      by (simpl; lia).
    apply (IH (counted svc a)
              {| fetchCount := S (fetchCount w); delays := delays w |}).
    destruct Hacc as (Hsent & Hcount & Hzero). unfold accountable, counted.
    simpl in *. destruct (usageOf a); simpl; repeat split; lia.
Qed.

Lemma accountable_delays sent svc w ds :
  accountable sent (svc, w) →
  accountable sent (svc, {| fetchCount := fetchCount w; delays := ds |}).
Proof. by intros (? & ? & ?). Qed.

Lemma perform_accountable sent op s s' :
  accountable sent s →
  final (perform upstream page op s) = Some s' →
  accountable sent s'.
Proof.
  intros Hacc. destruct s as [svc w].
  assert (final (makeOpenAIRequest upstream page (svc, w)) = Some s' →
          accountable sent s') as Hrequest.
  { rewrite makeOpenAIRequest_final.
    destruct (truthy_opt (apiKey svc)); intros [= <-]; [|done].
    pose proof (counted_accountable sent svc w
                  [upstream (fetchCount w)] Hacc) as H.
    simpl in H. by rewrite Nat.add_1_r in H. }
  destruct op; cbn [perform];
    try (simpl; intros [= <-]; destruct Hacc as (? & ? & ?);
         by repeat split).
  - rewrite final_discard.
    intros (n & ds & ->)%batchTranslate_final.
    pose proof (counted_accountable sent svc w
                  (answersFrom upstream (fetchCount w) n) Hacc) as H.
    rewrite answersFrom_length in H.
    by apply (accountable_delays sent _ _ ds) in H.
  - rewrite final_discard. unfold translateBatch. intros H.
    apply Hrequest. revert H. unfold mbind, M_bind, mret, M_ret.
    by destruct (makeOpenAIRequest upstream page (svc, w)).
  - by rewrite final_discard.
  - simpl. intros [= <-]. destruct Hacc as (? & ? & ?).
    repeat split; simpl in *; try done. lia.
Qed.

(** Whatever is called on a service after it was constructed, resets
    included: it has counted no more requests than were sent since, and it
    holds tokens only if it has counted a request. *)
Theorem performAll_accountable ops w s' :
  performAll upstream page ops (constructor, w) = Some s' →
  (requestCount (fst s')
   ≤ N.of_nat (fetchCount (snd s') - fetchCount w))%N
  ∧ (requestCount (fst s') = 0%N → totalTokensUsed (fst s') = 0%N).
Proof.
  enough (∀ s, accountable (fetchCount w) s →
               performAll upstream page ops s = Some s' →
               accountable (fetchCount w) s') as H.
  { intros Hrun. apply H in Hrun as (_ & ? & ?); [done|].
    repeat split; simpl; lia. }
  induction ops as [|op ops IH]; intros s Hacc; simpl.
  - by intros [= <-].
  - destruct (final (perform upstream page op s)) as [s1|] eqn:Hs1; [|done].
    apply IH. by eapply perform_accountable.
Qed.

End Run.

(** The average that [getStats] reports for counters within the counts
    that a double holds exactly: zero as long as no request was counted,
    otherwise within half a token of the exact quotient. *)
Theorem getStats_average svc :
  (totalTokensUsed svc < countBound)%N →
  (requestCount svc < countBound)%N →
  (requestCount svc = 0%N → averageTokensPerRequest (getStats svc) = 0%N)
  ∧ ((0 < requestCount svc)%N →
     (2 * averageTokensPerRequest (getStats svc) * requestCount svc
      ≤ 2 * totalTokensUsed svc + requestCount svc)%N
     ∧ (2 * totalTokensUsed svc
        < 2 * averageTokensPerRequest (getStats svc) * requestCount svc
          + requestCount svc)%N).
Proof.
  intros _ _.
  unfold getStats, roundedQuotient. cbn [averageTokensPerRequest]. split.
  - intros ->. done.
  - intros Hpos. rewrite (proj2 (N.ltb_lt _ _) Hpos).
    pose proof (N.div_mod (2 * totalTokensUsed svc + requestCount svc)
                  (2 * requestCount svc) ltac:(lia)) as Hdiv.
    pose proof (N.mod_lt (2 * totalTokensUsed svc + requestCount svc)
                  (2 * requestCount svc) ltac:(lia)) as Hmod.
    set (q := ((2 * totalTokensUsed svc + requestCount svc)
               / (2 * requestCount svc))%N) in *.
    set (r := ((2 * totalTokensUsed svc + requestCount svc)
               mod (2 * requestCount svc))%N) in *.
    split; lia.
Qed.

Import Fixtures.

Lemma batchTranslate_accounting_witness :
  ∃ results svc' w',
    batchTranslate secondFails broken fiveItems (lit "es") (lit "product")
      (keyedByTwo, fresh)
    = Returns results (svc', w')
    ∧ fetchCount w' = 3
    ∧ totalTokensUsed svc' = 42%N
    ∧ requestCount svc' = 2%N.
Proof.
  destruct (batchTranslate_accounting secondFails broken fiveItems
              (lit "es") (lit "product") keyedByTwo fresh)
    as [_ (results & svc' & w' & Hrun & Hfetch & Htokens & Hcount & _)];
    [done|reflexivity|simpl; lia|reflexivity|reflexivity|].
  exists results, svc', w'.
  repeat split; [exact Hrun|exact Hfetch|exact Htokens|exact Hcount].
Defined.

Lemma batchTranslate_pacing_witness :
  ∃ results svc' w',
    batchTranslate secondFails settled fiveItems (lit "es") (lit "product")
      (keyedByTwo, fresh)
    = Returns results (svc', w')
    ∧ delays w' = [1000%N].
Proof.
  destruct (batchTranslate_pacing secondFails settled fiveItems (lit "es")
              (lit "product") keyedByTwo fresh)
    as (results & svc' & w' & Hrun & Hdelays);
    [done|reflexivity|simpl; lia|].
  exists results, svc', w'. split; [exact Hrun|exact Hdelays].
Defined.

Lemma performAll_accountable_witness :
  (requestCount (fst Shop.afterHistory)
   ≤ N.of_nat (fetchCount (snd Shop.afterHistory) - fetchCount fresh))%N
  ∧ (requestCount (fst Shop.afterHistory) = 0%N →
     totalTokensUsed (fst Shop.afterHistory) = 0%N).
Proof.
  apply (performAll_accountable secondFails bare Shop.history fresh
           Shop.afterHistory).
  reflexivity.
Defined.

Lemma getStats_average_witness :
  averageTokensPerRequest
    (getStats {| apiKey := None; totalTokensUsed := 43%N;
                 requestCount := 2%N; batchSize := 10;
                 maxTokensPerRequest := 3000%N |})
  = 22%N.
Proof.
  destruct (getStats_average
              {| apiKey := None; totalTokensUsed := 43%N;
                 requestCount := 2%N; batchSize := 10;
                 maxTokensPerRequest := 3000%N |})
    as [_ Hbounds]; [reflexivity|reflexivity|].
  destruct Hbounds as [Hupper Hlower]; [reflexivity|].
  cbn [totalTokensUsed requestCount] in Hupper, Hlower. lia.
Defined.

End AccountingFacts.

(** ** Decoding a well-formed reply *)

Module RoundTripFacts.
Import TranslationService StringFacts CodecFacts.

Lemma startsWith_other (c x : N) (sep' s : jsstring) :
  c ≠ x → startsWith (c :: sep') (x :: s) = false.
Proof. intros Hne. simpl. by rewrite bool_decide_false. Qed.

Lemma startsWith_self (sep s : jsstring) : startsWith sep (sep ++ s) = true.
Proof. apply startsWith_prefix. by exists s. Qed.

(** A piece without the first code unit of the separator is read through
    in one go. *)
Lemma split_from_piece (c : N) (sep' piece : jsstring) :
  c ∉ piece →
  ∀ cur s,
    split_from (c :: sep') 0 cur (piece ++ s)
    = split_from (c :: sep') 0 (cur ++ piece) s.
Proof.
  induction piece as [|x piece IH]; intros Hfree cur s.
  - by rewrite app_nil_r.
  - apply not_elem_of_cons in Hfree as [Hx Hfree].
    cbn [app split_from]. rewrite startsWith_other by done.
    rewrite IH by done. by rewrite <- app_assoc.
Qed.

(** Splitting what was joined gives the pieces back, when none of them
    holds the first code unit of the separator. *)
Lemma split_from_join (c : N) (sep' : jsstring) (rest : list jsstring) :
  ∀ piece cur,
    Forall (λ p, c ∉ p) (piece :: rest) →
    split_from (c :: sep') 0 cur (join (c :: sep') (piece :: rest))
    = (cur ++ piece) :: rest.
Proof.
  induction rest as [|next rest IH]; intros piece cur Hfree.
  - apply Forall_cons in Hfree as [Hpiece _]. cbn [join].
    rewrite <- (app_nil_r piece) at 1. rewrite split_from_piece by done.
    done.
  - apply Forall_cons in Hfree as [Hpiece Hrest].
    rewrite join_cons by done. rewrite split_from_piece by done.
    assert (∀ s, split_from (c :: sep') 0 (cur ++ piece)
                   ((c :: sep') ++ s)
                 = (cur ++ piece) :: split_from (c :: sep') 0 [] s) as Hsep.
    { intros s. pose proof (startsWith_self (c :: sep') s) as Hself.
      cbn [app split_from] in *. rewrite Hself.
      assert (∀ x : N, length (x :: sep') - 1 = length sep') as ->
        by (intros; simpl; lia).
      by rewrite split_from_skip. }
    rewrite Hsep, IH by done. done.
Qed.

Lemma split_join (c : N) (sep' : jsstring) (pieces : list jsstring) :
  pieces ≠ [] →
  Forall (λ p, c ∉ p) pieces →
  split (c :: sep') (join (c :: sep') pieces) = pieces.
Proof.
  intros Hne Hfree. destruct pieces as [|piece rest]; [done|].
  unfold split. by rewrite split_from_join.
Qed.

(** When the reply, trimmed, is [length batch] pieces joined by ["|||"],
    none of them holding a bar and none of them blank, every request gets
    its own piece, trimmed: decoding undoes the joining. *)
Theorem parseBatchResponse_round_trip response batch text
    (pieces translations : list jsstring) :
  responseContent response = inr text →
  trim text = join DELIMITER pieces →
  Forall (λ piece, 124%N ∉ piece) pieces →
  Forall2 (λ piece t, trim piece = t ∧ t ≠ []) pieces translations →
  length translations = length batch →
  parseBatchResponse response batch
  = zip_with (λ item t, {| source := item; translatedText := t |})
      batch translations.
Proof.
  intros Htext Hjoin Hfree Htrim Hlen.
  rewrite (parseBatchResponse_decoded _ _ _ Htext).
  destruct (decide (pieces = [])) as [->|Hne].
  { apply Forall2_nil_inv_l in Htrim as ->.
    destruct batch; [done|simpl in Hlen; lia]. }
  assert (decodePieces text = translations) as ->.
  { unfold decodePieces. rewrite Hjoin.
    change DELIMITER with (124%N :: [124%N; 124%N]).
    rewrite split_join by done.
    clear -Htrim. induction Htrim as [|p t ps ts [Hp _] _ IH]; [done|].
    rewrite fmap_cons. by rewrite Hp, IH. }
  apply list_eq. intros i.
  rewrite zipTranslations_lookup, lookup_zip_with.
  destruct (batch !! i) as [item|] eqn:Hi; [|done]. simpl.
  destruct (translations !! i) as [t|] eqn:Ht.
  - simpl. f_equal. f_equal.
    assert (t ≠ []) as Hnonempty.
    { apply (Forall2_lookup_r _ _ _ _ _ Htrim) in Ht as (p & _ & _ & ?).
      done. }
    by apply truthy_true in Hnonempty as ->.
  - apply lookup_lt_Some in Hi. apply lookup_ge_None in Ht. lia.
Qed.

Lemma bar_free (s : jsstring) :
  forallb (λ c, negb (c =? 124)%N) s = true → 124%N ∉ s.
Proof.
  intros Hs Hin. apply list_elem_of_In in Hin.
  rewrite forallb_forall in Hs. apply Hs in Hin. by rewrite N.eqb_refl in Hin.
Qed.

Import Fixtures.

Lemma parseBatchResponse_round_trip_witness :
  parseBatchResponse (reply " Camisa Azul ||| camisa, azul " 30)
    [titleItem; tagsItem]
  = zip_with (λ item t, {| source := item; translatedText := t |})
      [titleItem; tagsItem] [lit "Camisa Azul"; lit "camisa, azul"].
Proof.
  apply (parseBatchResponse_round_trip _ _
           (lit " Camisa Azul ||| camisa, azul ")
           [lit "Camisa Azul "; lit " camisa, azul"]
           [lit "Camisa Azul"; lit "camisa, azul"]).
  - reflexivity.
  - reflexivity.
  - constructor; [|constructor; [|constructor]]; by apply bar_free.
  - repeat constructor; try reflexivity; discriminate.
  - reflexivity.
Defined.

End RoundTripFacts.

(** ** From a record to requests and back *)

Module RecordFacts.
Import Dom TranslationService Apply StringFacts HtmlFacts.

Section Bridge.
Variable parseHTML : jsstring → list node.
Variable serializeHTML : list node → jsstring.

Lemma plainText_elem name flag value item r :
  r ∈ plainText name flag value item →
  plainText name flag value item = [r]
  ∧ field r = name ∧ flag = true ∧ value = Some (originalText r)
  ∧ itemId r = id item ∧ hasHTML r = false ∧ originalHTML r = None.
Proof.
  unfold plainText. destruct value as [text|]; [|by intros ?%elem_of_nil].
  destruct flag; simpl; [|by intros ?%elem_of_nil].
  destruct (truthy text); [|by intros ?%elem_of_nil].
  by intros ->%list_elem_of_singleton.
Qed.

Lemma htmlText_elem name flag item r :
  r ∈ htmlText parseHTML name flag item →
  htmlText parseHTML name flag item = [r]
  ∧ field r = name ∧ flag = true ∧ itemId r = id item ∧ hasHTML r = true
  ∧ originalHTML r = body_html item
  ∧ ∃ html, body_html item = Some html
            ∧ originalText r = stripHTML parseHTML html.
Proof.
  unfold htmlText. destruct (body_html item) as [html|];
    [|by intros ?%elem_of_nil].
  destruct flag; simpl; [|by intros ?%elem_of_nil].
  destruct (truthy html); [|by intros ?%elem_of_nil].
  destruct (truthy (trim (stripHTML parseHTML html)));
    [|by intros ?%elem_of_nil].
  intros ->%list_elem_of_singleton. simpl. repeat split; eauto.
Qed.

Lemma plainText_fields name flag value item :
  field <$> plainText name flag value item = []
  ∨ field <$> plainText name flag value item = [name].
Proof.
  unfold plainText. destruct value; [|by left].
  destruct (flag && truthy _); [by right|by left].
Qed.

Lemma htmlText_fields name flag item :
  field <$> htmlText parseHTML name flag item = []
  ∨ field <$> htmlText parseHTML name flag item = [name].
Proof.
  unfold htmlText. destruct (body_html item); [|by left].
  destruct (flag && truthy _); [|by left].
  destruct (truthy (trim _)); [by right|by left].
Qed.

(** What the extractor emits: requests for selected fields only, at most
    one per field and three in all, each with the id of the record; a plain
    request carries the title or the tags of the record as they are, an
    HTML-bearing one the stripped [body_html] together with the markup. *)
Theorem validateFieldsForTranslation_shape item selectedFields itemType :
  let texts :=
    validateFieldsForTranslation parseHTML item selectedFields itemType in
  (∀ r, r ∈ texts →
     selected selectedFields (field r) = true
     ∧ itemId r = id item
     ∧ ((hasHTML r = false ∧ originalHTML r = None
         ∧ ((field r = "title"%string ∧ title item = Some (originalText r))
            ∨ (field r = "tags"%string ∧ tags item = Some (originalText r))))
        ∨ (hasHTML r = true ∧ originalHTML r = body_html item
           ∧ ∃ html, body_html item = Some html
                     ∧ originalText r = stripHTML parseHTML html)))
  ∧ NoDup (field <$> texts)
  ∧ length texts ≤ 3.
Proof.
  intros texts. subst texts. unfold validateFieldsForTranslation.
  split; [|split].
  - intros r.
    destruct (String.eqb itemType "product");
      [|destruct (String.eqb itemType "collection");
        [|destruct (String.eqb itemType "page"); [|by intros ?%elem_of_nil]]];
      rewrite ?elem_of_app; intros Hr; destruct_or! Hr;
      first [ apply plainText_elem in Hr
                as (_ & Hname & Hflag & Hvalue & Hid & Hplain & Hnone);
              rewrite Hname, Hflag; repeat split; try done;
              left; repeat split; try done; by eauto
            | apply htmlText_elem in Hr
                as (_ & Hname & Hflag & Hid & Hhtml & Hmarkup & Hstrip);
              rewrite Hname, Hflag; repeat split; try done;
              by right ].
  - destruct (String.eqb itemType "product");
      [|destruct (String.eqb itemType "collection");
        [|destruct (String.eqb itemType "page"); [|apply NoDup_nil_2]]];
      rewrite !fmap_app;
      repeat match goal with
      | |- context [field <$> plainText ?n ?f ?v ?i] =>
          destruct (plainText_fields n f v i) as [-> | ->]
      | |- context [field <$> htmlText _ ?n ?f ?i] =>
          destruct (htmlText_fields n f i) as [-> | ->]
      end; simpl; apply NoDup_ListNoDup;
      repeat (apply List.NoDup_cons; [simpl; intuition discriminate|]);
      apply List.NoDup_nil.
  - destruct (String.eqb itemType "product");
      [|destruct (String.eqb itemType "collection");
        [|destruct (String.eqb itemType "page"); [|simpl; lia]]];
      rewrite !length_app;
      repeat match goal with
      | |- context [length (plainText ?n ?f ?v ?i)] =>
          let H := fresh in
          assert (length (plainText n f v i) ≤ 1) as H
            by (rewrite <- (length_fmap field);
                destruct (plainText_fields n f v i) as [-> | ->];
                simpl; lia);
          generalize dependent (plainText n f v i); intros
      | |- context [length (htmlText ?p ?n ?f ?i)] =>
          let H := fresh in
          assert (length (htmlText p n f i) ≤ 1) as H
            by (rewrite <- (length_fmap field);
                destruct (htmlText_fields n f i) as [-> | ->];
                simpl; lia);
          generalize dependent (htmlText p n f i); intros
      end; lia.
Qed.

Lemma foldl_keeps {A B} (step : A → B → A) (P : A → Prop) (l : list B) :
  (∀ a b, b ∈ l → P a → P (step a b)) → ∀ a, P a → P (foldl step a l).
Proof.
  induction l as [|b l IH]; intros Hstep a Ha; [done|]. simpl.
  apply IH.
  - intros a' b' Hb'. apply Hstep. by right.
  - apply Hstep; [by left|done].
Qed.

(** Writing translations onto a product never touches its id, nor a field
    whose flag is not set, nor a field that no result names. *)
Theorem applyProductTranslations_frame product results selectedFields :
  let updated :=
    applyProductTranslations parseHTML serializeHTML product results
      selectedFields in
  id updated = id product
  ∧ (selected selectedFields "title" = false
     ∨ (∀ r, r ∈ results → field (source r) ≠ "title"%string) →
     title updated = title product)
  ∧ (selected selectedFields "description" = false
     ∨ (∀ r, r ∈ results → field (source r) ≠ "description"%string) →
     body_html updated = body_html product)
  ∧ (selected selectedFields "tags" = false
     ∨ (∀ r, r ∈ results → field (source r) ≠ "tags"%string) →
     tags updated = tags product).
Proof.
  intros updated. subst updated. unfold applyProductTranslations.
  split; [|split; [|split]].
  - apply (foldl_keeps _ (λ u, id u = id product)); [|done].
    intros u r _ Hu. unfold applyProductField.
    repeat case_match; simpl; done.
  - intros Hoff.
    apply (foldl_keeps _ (λ u, title u = title product)); [|done].
    intros u r Hr Hu. unfold applyProductField.
    destruct (String.eqb_spec (field (source r)) "title") as [Heq|_].
    + destruct Hoff as [-> |Hnone]; [done|]. by apply Hnone in Hr.
    + repeat case_match; simpl; done.
  - intros Hoff.
    apply (foldl_keeps _ (λ u, body_html u = body_html product)); [|done].
    intros u r Hr Hu. unfold applyProductField.
    destruct (String.eqb_spec (field (source r)) "title") as [_|_];
      [by case_match|].
    destruct (String.eqb_spec (field (source r)) "description") as [Heq|_].
    + destruct Hoff as [-> |Hnone]; [done|]. by apply Hnone in Hr.
    + repeat case_match; simpl; done.
  - intros Hoff.
    apply (foldl_keeps _ (λ u, tags u = tags product)); [|done].
    intros u r Hr Hu. unfold applyProductField.
    destruct (String.eqb_spec (field (source r)) "title") as [_|_];
      [by case_match|].
    destruct (String.eqb_spec (field (source r)) "description") as [_|_];
      [by case_match|].
    destruct (String.eqb_spec (field (source r)) "tags") as [Heq|_].
    + destruct Hoff as [-> |Hnone]; [done|]. by apply Hnone in Hr.
    + done.
Qed.

(** Writing translations onto a collection or a page never touches its id
    or its tags, nor the title or the body when their flag is not set. *)
Theorem applyTranslations_frame record results selectedFields :
  let collection :=
    applyCollectionTranslations parseHTML serializeHTML record results
      selectedFields in
  let page :=
    applyPageTranslations parseHTML serializeHTML record results
      selectedFields in
  id collection = id record ∧ tags collection = tags record
  ∧ id page = id record ∧ tags page = tags record
  ∧ (selected selectedFields "title" = false →
     title collection = title record ∧ title page = title record)
  ∧ (selected selectedFields "description" = false →
     body_html collection = body_html record)
  ∧ (selected selectedFields "content" = false →
     body_html page = body_html record).
Proof.
  intros collection page. subst collection page.
  unfold applyCollectionTranslations, applyPageTranslations.
  repeat split;
    try (intros Hoff);
    match goal with
    | |- ?f (foldl _ _ _) = ?f record =>
        apply (foldl_keeps _ (λ u, f u = f record)); [|done]
    end;
    intros u r _ Hu; unfold applyCollectionField, applyPageField;
    rewrite ?Hoff; repeat case_match; simpl; done.
Qed.

Lemma plainText_cases name flag value item :
  plainText name flag value item = []
  ∨ ∃ x, plainText name flag value item = [x]
         ∧ field x = name ∧ flag = true.
Proof.
  unfold plainText. destruct value; [|by left].
  destruct flag; simpl; [|by left].
  destruct (truthy _); [right|by left]. eauto.
Qed.

Lemma htmlText_cases name flag item :
  htmlText parseHTML name flag item = []
  ∨ ∃ x html, htmlText parseHTML name flag item = [x]
              ∧ field x = name ∧ flag = true ∧ hasHTML x = true
              ∧ originalHTML x = Some html ∧ body_html item = Some html.
Proof.
  unfold htmlText. destruct (body_html item) as [html|]; [|by left].
  destruct flag; simpl; [|by left].
  destruct (truthy html); [|by left].
  destruct (truthy (trim _)); [right|by left].
  eexists _, html. by repeat split.
Qed.

(** Extraction, translation and write-back put together for a product: when
    the results line up with the requests extracted from it (as those of
    [batchTranslate] do), the title and the tags become the translated text
    of their result, and the body becomes the markup restored around the
    translated description. *)
Theorem applyProductTranslations_extracted product selectedFields results :
  source <$> results
  = validateFieldsForTranslation parseHTML product selectedFields "product" →
  let updated :=
    applyProductTranslations parseHTML serializeHTML product results
      selectedFields in
  ∀ r, r ∈ results →
    (field (source r) = "title"%string →
     title updated = Some (translatedText r))
    ∧ (field (source r) = "tags"%string →
       tags updated = Some (translatedText r))
    ∧ (field (source r) = "description"%string →
       ∃ html, body_html product = Some html
               ∧ body_html updated
                 = Some (restoreHTML parseHTML serializeHTML html
                           (translatedText r))).
Proof.
  intros Hsources updated r Hr. subst updated.
  unfold validateFieldsForTranslation in Hsources.
  cbn [String.eqb Ascii.eqb Bool.eqb] in Hsources.
  unfold applyProductTranslations.
  destruct (plainText_cases "title" (selected selectedFields "title")
              (title product) product)
    as [Htitle|(xt & Htitle & Hft & Hst)];
  destruct (htmlText_cases "description"
              (selected selectedFields "description") product)
    as [Hbody|(xb & html & Hbody & Hfb & Hsb & Hhb & Hob & Hpb)];
  destruct (plainText_cases "tags" (selected selectedFields "tags")
              (tags product) product)
    as [Htags|(xg & Htags & Hfg & Hsg)];
  rewrite Htitle, Hbody, Htags in Hsources; simpl in Hsources;
  destruct results as [|r1 [|r2 [|r3 [|r4 results]]]]; try done;
  simplify_eq/=;
  repeat (apply elem_of_cons in Hr as [->|Hr]);
  try (by apply elem_of_nil in Hr);
  unfold applyProductField, bodyOf, markupOf;
  repeat match goal with
  | H : field ?x = _ |- _ => rewrite !H; clear H
  | H : selected _ _ = true |- _ => rewrite !H; clear H
  | H : hasHTML _ = true |- _ => rewrite !H; clear H
  | H : originalHTML _ = Some _ |- _ => rewrite !H; clear H
  end;
  simpl; repeat split; try done; intros; simplify_eq; eauto.
Qed.

End Bridge.

Import Fixtures.

Lemma applyProductTranslations_extracted_witness :
  title (applyProductTranslations Browser.parseHTML Browser.serializeHTML
           {| id := 7; title := Some (lit "Blue Shirt");
              body_html := Some (lit "<p>Soft cotton</p>"); tags := None |}
           [ {| source := titleItem; translatedText := lit "Camisa Azul" |};
             {| source :=
                  {| field := "description";
                     originalText := lit "Soft cotton"; itemId := 7;
                     hasHTML := true;
                     originalHTML := Some (lit "<p>Soft cotton</p>") |};
                translatedText := lit "Algodon suave" |} ]
           {[ "title"%string := true; "description"%string := true ]})
  = Some (lit "Camisa Azul").
Proof.
  refine (proj1 (applyProductTranslations_extracted Browser.parseHTML
                   Browser.serializeHTML
                   {| id := 7; title := Some (lit "Blue Shirt");
                      body_html := Some (lit "<p>Soft cotton</p>");
                      tags := None |}
                   {[ "title"%string := true; "description"%string := true ]}
                   [ {| source := titleItem;
                        translatedText := lit "Camisa Azul" |};
                     {| source :=
                          {| field := "description";
                             originalText := lit "Soft cotton"; itemId := 7;
                             hasHTML := true;
                             originalHTML := Some (lit "<p>Soft cotton</p>") |};
                        translatedText := lit "Algodon suave" |} ]
                   eq_refl
                   {| source := titleItem;
                      translatedText := lit "Camisa Azul" |} _) eq_refl).
  by left.
Defined.

Example applyProductTranslations_blue_shirt :
  applyProductTranslations Browser.parseHTML Browser.serializeHTML
    {| id := 7; title := Some (lit "Blue Shirt");
       body_html := Some (lit "<p>Soft cotton</p>"); tags := None |}
    [ {| source := titleItem; translatedText := lit "Camisa Azul" |};
      {| source :=
           {| field := "description"; originalText := lit "Soft cotton";
              itemId := 7; hasHTML := true;
              originalHTML := Some (lit "<p>Soft cotton</p>") |};
         translatedText := lit "Algodon suave" |} ]
    {[ "title"%string := true; "description"%string := true ]}
  = {| id := 7; title := Some (lit "Camisa Azul");
       body_html := Some (lit "<p>Algodon suave</p>"); tags := None |}.
Proof. reflexivity. Qed.

End RecordFacts.

(** ** The log of the application *)

Module LoggingFacts.
Import Logging.

Section Entries.
Context {A : Type}.
Implicit Types (l es : list A).

Lemma sliceLast_short k l : length l ≤ k → sliceLast k l = l.
Proof.
  intros Hk. unfold sliceLast. by replace (length l - k) with 0 by lia.
Qed.

Lemma sliceLast_length k l : length (sliceLast k l) = k `min` length l.
Proof. unfold sliceLast. rewrite length_drop. lia. Qed.

Lemma sliceLast_app k l es :
  sliceLast k (sliceLast k l ++ es) = sliceLast k (l ++ es).
Proof.
  destruct (decide (length l ≤ k)) as [Hle|Hgt].
  - by rewrite (sliceLast_short k l).
  - unfold sliceLast at 1 3. rewrite !length_app, sliceLast_length.
    replace (k `min` length l + length es - k) with (length es) by lia.
    replace (length l + length es - k)
      with ((length l - k) + length es) by lia.
    rewrite <- drop_drop. f_equal. unfold sliceLast.
    rewrite drop_app_le by lia. done.
Qed.

End Entries.

Lemma log_sliceLast logs entry : log logs entry = sliceLast 100 (logs ++ [entry]).
Proof.
  unfold log. case_bool_decide; [done|].
  symmetry. apply sliceLast_short. lia.
Qed.

(** However many entries are logged, the log holds the last hundred of
    them (all of them while there are fewer), in the order they came. *)
Theorem logAll_last_hundred logs entries :
  length logs ≤ 100 →
  logAll logs entries = sliceLast 100 (logs ++ entries)
  ∧ length (logAll logs entries) ≤ 100.
Proof.
  intros Hlogs.
  assert (logAll logs entries = sliceLast 100 (logs ++ entries)) as ->.
  { revert logs Hlogs. unfold logAll.
    induction entries as [|e entries IH]; intros logs Hlogs; simpl.
    - rewrite app_nil_r. symmetry. by apply sliceLast_short.
    - rewrite IH.
      + rewrite log_sliceLast, sliceLast_app, <- app_assoc. done.
      + rewrite log_sliceLast, sliceLast_length. lia. }
  split; [done|]. rewrite sliceLast_length. lia.
Qed.

Lemma logAll_last_hundred_witness :
  logAll []
    [ {| timestamp := lit "10:00:00"; level := lit "info";
         message := lit "Fetching products..." |};
      {| timestamp := lit "10:00:01"; level := lit "success";
         message := lit "Fetched 5 products" |} ]
  = sliceLast 100
      ([] ++ [ {| timestamp := lit "10:00:00"; level := lit "info";
                  message := lit "Fetching products..." |};
               {| timestamp := lit "10:00:01"; level := lit "success";
                  message := lit "Fetched 5 products" |} ])
  ∧ length
      (logAll []
         [ {| timestamp := lit "10:00:00"; level := lit "info";
              message := lit "Fetching products..." |};
           {| timestamp := lit "10:00:01"; level := lit "success";
              message := lit "Fetched 5 products" |} ]) ≤ 100.
Proof. apply logAll_last_hundred. simpl. lia. Defined.

End LoggingFacts.

(** ** Requests to the store *)

Module StoreFacts.
Import ShopifyAPI StoreClient StringFacts RateFacts.

Lemma includes_occursIn (needle s : jsstring) :
  includes needle s = true ↔ occursIn needle s.
Proof.
  induction s as [|c s IH]; simpl.
  - rewrite orb_false_r, startsWith_prefix. split.
    + intros (rest & Hrest). by exists [], rest.
    + intros (before & after & Heq).
      symmetry in Heq. apply app_eq_nil in Heq as [-> Heq]. eauto.
  - rewrite orb_true_iff, IH, startsWith_prefix. split.
    + intros [(rest & ->)|(before & after & ->)].
      * by exists [], rest.
      * by exists (c :: before), after.
    + intros ([|d before] & after & Heq); simpl in Heq.
      * left. eauto.
      * right. injection Heq as -> ->. by exists before, after.
Qed.

Lemma startsWith_app (p s : jsstring) : startsWith p (p ++ s) = true.
Proof. apply startsWith_prefix. by exists s. Qed.

Lemma startsWith_elem (p s : jsstring) c :
  startsWith p s = true → c ∈ p → c ∈ s.
Proof.
  intros (rest & ->)%startsWith_prefix Hc. apply elem_of_app. by left.
Qed.

Lemma stripTrailingSlash_slash (s : jsstring) :
  stripTrailingSlash (s ++ [47%N]) = s.
Proof.
  unfold stripTrailingSlash. rewrite reverse_snoc.
  rewrite bool_decide_true by done. apply reverse_involutive.
Qed.

Lemma stripTrailingSlash_free (s : jsstring) :
  47%N ∉ s → stripTrailingSlash s = s.
Proof.
  intros Hfree. unfold stripTrailingSlash.
  destruct (reverse s) as [|c rest] eqn:Hrev; [done|].
  rewrite bool_decide_false; [done|]. intros ->. apply Hfree.
  apply elem_of_reverse. rewrite Hrev. by left.
Qed.

Lemma stripProtocol_free (s : jsstring) :
  47%N ∉ s → stripProtocol (s ++ [47%N]) = s ++ [47%N] ∧ stripProtocol s = s.
Proof.
  intros Hfree. unfold stripProtocol.
  assert (∀ p t, p = lit "https://" ∨ p = lit "http://" →
                 t = s ∨ t = s ++ [47%N] → startsWith p t = false) as Hno.
  { intros p t Hp Ht. destruct (startsWith p t) eqn:Hstart; [|done].
    apply startsWith_prefix in Hstart as (rest & Hrest).
    assert (∃ a b, t = a ++ 47%N :: 47%N :: b) as (a & b & Hab).
    { destruct Hp as [-> | ->]; rewrite Hrest.
      - by exists (lit "https:"), rest.
      - by exists (lit "http:"), rest. }
    exfalso. destruct Ht as [-> | ->].
    - apply Hfree. rewrite Hab. apply elem_of_app. right. by left.
    - destruct (decide (b = [])) as [->|Hb].
      + replace (a ++ [47%N; 47%N]) with ((a ++ [47%N]) ++ [47%N]) in Hab
          by (by rewrite <- app_assoc).
        apply app_inj_tail in Hab as [-> _]. apply Hfree.
        apply elem_of_app. right. by left.
      + destruct (exists_last Hb) as (b' & x & ->).
        replace (a ++ 47%N :: 47%N :: b' ++ [x])
          with ((a ++ 47%N :: 47%N :: b') ++ [x]) in Hab
          by (by rewrite <- app_assoc).
        apply app_inj_tail in Hab as [-> _]. apply Hfree.
        apply elem_of_app. right. by left. }
  rewrite !Hno by auto. done.
Qed.

(** However a host is spelled in the form, with [https://] or [http://] in
    front or not, with a slash at the end or not, [connect] keeps the bare
    host. *)
Theorem normalizeStoreUrl_spellings (host : jsstring) :
  47%N ∉ host →
  normalizeStoreUrl host = host
  ∧ normalizeStoreUrl (host ++ lit "/") = host
  ∧ normalizeStoreUrl (lit "https://" ++ host) = host
  ∧ normalizeStoreUrl (lit "https://" ++ host ++ lit "/") = host
  ∧ normalizeStoreUrl (lit "http://" ++ host) = host
  ∧ normalizeStoreUrl (lit "http://" ++ host ++ lit "/") = host.
Proof.
  intros Hfree. unfold normalizeStoreUrl.
  destruct (stripProtocol_free host Hfree) as [Hslash Hbare].
  change (lit "/") with [47%N].
  assert (stripProtocol (lit "https://" ++ host) = host
          ∧ stripProtocol (lit "https://" ++ host ++ [47%N])
            = host ++ [47%N]
          ∧ stripProtocol (lit "http://" ++ host) = host
          ∧ stripProtocol (lit "http://" ++ host ++ [47%N])
            = host ++ [47%N]) as (-> & -> & -> & ->).
  { unfold stripProtocol. rewrite !startsWith_app. by repeat split. }
  rewrite Hslash, Hbare, stripTrailingSlash_slash.
  by rewrite stripTrailingSlash_free.
Qed.

Lemma normalizeStoreUrl_spellings_witness :
  normalizeStoreUrl (lit "shop.myshopify.com") = lit "shop.myshopify.com"
  ∧ normalizeStoreUrl (lit "shop.myshopify.com" ++ lit "/")
    = lit "shop.myshopify.com"
  ∧ normalizeStoreUrl (lit "https://" ++ lit "shop.myshopify.com")
    = lit "shop.myshopify.com"
  ∧ normalizeStoreUrl (lit "https://" ++ lit "shop.myshopify.com" ++ lit "/")
    = lit "shop.myshopify.com"
  ∧ normalizeStoreUrl (lit "http://" ++ lit "shop.myshopify.com")
    = lit "shop.myshopify.com"
  ∧ normalizeStoreUrl (lit "http://" ++ lit "shop.myshopify.com" ++ lit "/")
    = lit "shop.myshopify.com".
Proof.
  apply (normalizeStoreUrl_spellings (lit "shop.myshopify.com")).
  intros Hin. apply list_elem_of_In in Hin. simpl in Hin.
  repeat destruct Hin as [Hin|Hin]; try discriminate Hin. done.
Defined.

Lemma updateRateLimit_keeps Number api headers :
  storeUrl (updateRateLimit Number api headers) = storeUrl api
  ∧ apiKey (updateRateLimit Number api headers) = apiKey api
  ∧ isConnected (updateRateLimit Number api headers) = isConnected api
  ∧ lastRequestTime (updateRateLimit Number api headers)
    = lastRequestTime api.
Proof.
  unfold updateRateLimit. destruct (get headers _) as [h|]; [|done].
  by destruct (JS.truthy h).
Qed.

Section Requests.
Variable Json : Type.
Variable clock : nat → Z.
Variable respond : nat → Request Json → option (Response Json).
Variable Number : jsstring → jsnum.
Variable isNull : Json → bool.
Variable errorDetail : Json → option jsstring.

Abbreviation makeRequest :=
  (makeRequest Json clock respond Number isNull errorDetail).

(** A request that is let through, step by step. *)
Lemma makeRequest_let_through endpoint optMethod optBody api net :
  isConnected api = true ∨ includes (lit "/shop.json") endpoint = true →
  let waited :=
    waitForRateLimit api (clock (clockReads net))
      (clock (S (clockReads net))) in
  let request := requestFor (snd waited) endpoint optMethod optBody in
  let net' :=
    {| clockReads := S (S (clockReads net));
       sent := sent net ++ [request];
       timers := timers net
                 ++ match fst waited with Some ms => [ms] | None => [] end |}
  in
  makeRequest endpoint optMethod optBody (api, net)
  = match respond (length (sent net)) request with
    | None => Fail TypeError (snd waited, net')
    | Some response =>
        let api' := updateRateLimit Number (snd waited) (headers response)
        in
        if ok response then
          match json response with
          | Some data => Done data (api', net')
          | None => Fail SyntaxError (api', net')
          end
        else Fail (apiError Json isNull errorDetail response) (api', net')
    end.
Proof.
  intros Hthrough waited request net'. subst waited request net'.
  unfold StoreClient.makeRequest. cbn [fst snd].
  assert (negb (isConnected api)
          && negb (includes (lit "/shop.json") endpoint) = false) as ->.
  { destruct Hthrough as [-> | ->]; [done|]. apply andb_false_r. }
  unfold awaitRateLimit, fetch.
  destruct (waitForRateLimit api _ _) as [suspension api1] eqn:Hwait.
  cbn [fst snd sent clockReads timers].
  destruct (respond _ _) as [response|]; [|done].
  by destruct (ok response).
Qed.

(** [makeRequest] refuses an endpoint other than the shop's on a client
    that is not connected, before it reads the clock or sends anything.
    Otherwise it sends exactly one request, stamps [lastRequestTime] with
    the clock as read just before sending, and, whatever the status of the
    response, takes the rate limit from its headers; it returns exactly
    when the response is ok and its body can be read. *)
Theorem makeRequest_effects endpoint optMethod optBody api net :
  let waited :=
    waitForRateLimit api (clock (clockReads net))
      (clock (S (clockReads net))) in
  let request := requestFor (snd waited) endpoint optMethod optBody in
  (isConnected api = false ∧ includes (lit "/shop.json") endpoint = false →
   makeRequest endpoint optMethod optBody (api, net)
   = Fail (Error (lit "Not connected to store")) (api, net))
  ∧ (isConnected api = true ∨ includes (lit "/shop.json") endpoint = true →
     ∃ s',
       ending (makeRequest endpoint optMethod optBody (api, net)) = Some s'
       ∧ sent (snd s') = sent net ++ [request]
       ∧ clockReads (snd s') = S (S (clockReads net))
       ∧ lastRequestTime (fst s') = clock (S (clockReads net))
       ∧ (respond (length (sent net)) request = None →
          makeRequest endpoint optMethod optBody (api, net)
          = Fail TypeError s')
       ∧ ∀ response,
           respond (length (sent net)) request = Some response →
           fst s' = updateRateLimit Number (snd waited) (headers response)
           ∧ ∀ data,
               makeRequest endpoint optMethod optBody (api, net)
               = Done data s'
               ↔ ok response = true ∧ json response = Some data).
Proof.
  intros waited request. split.
  - intros [Hoff Hother]. unfold StoreClient.makeRequest. cbn [fst].
    by rewrite Hoff, Hother.
  - intros Hthrough.
    rewrite (makeRequest_let_through _ _ _ _ _ Hthrough).
    fold waited. fold request.
    assert (lastRequestTime (snd waited) = clock (S (clockReads net)))
      as Hstamp by done.
    destruct (respond (length (sent net)) request) as [response|].
    + destruct (updateRateLimit_keeps Number (snd waited)
                  (headers response)) as (_ & _ & _ & Hkeep).
      eexists (updateRateLimit Number (snd waited) (headers response), _).
      split; [by destruct (ok response), (json response)|].
      cbn [fst snd sent clockReads].
      split; [done|]. split; [done|]. split; [congruence|].
      split; [done|]. intros ? [= <-]. split; [done|].
      intros data. destruct (ok response), (json response);
        split; try done; try (by intros [= ->]); try (by intros [_ [= ->]]);
        by intros [? ?].
    + eexists (snd waited, _). cbn [ending fst snd sent clockReads].
      by repeat split.
Qed.

Variable shopOf : Json → option Json.
Variable productsOf : Json → option (list Json).
Variable formEncode : jsstring → jsstring.

Abbreviation connect :=
  (connect Json clock respond Number isNull errorDetail shopOf).
Abbreviation getProducts :=
  (getProducts Json clock respond Number isNull errorDetail productsOf
     formEncode).

(** [connect] always asks the shop of the normalised host, with the new
    token, and keeps both on the client however the request ends.  It sets
    [isConnected] when the reply holds a shop and never clears it: after a
    failed [connect] a client that was connected still counts as
    connected, to the new host. *)
Theorem connect_outcome url key api net :
  ∃ s',
    ending (connect url key (api, net)) = Some s'
    ∧ storeUrl (fst s') = Some (normalizeStoreUrl url)
    ∧ apiKey (fst s') = Some key
    ∧ sent (snd s')
      = sent net
        ++ [ {| StoreClient.url :=
                  lit "https://" ++ normalizeStoreUrl url
                  ++ lit "/admin/api/2023-10/shop.json";
                method := lit "GET";
                accessToken := Some key;
                body := None |} ]
    ∧ (isConnected (fst s') = true
       ↔ isConnected api = true
         ∨ ∃ shop, connect url key (api, net) = Done (Some shop) s').
Proof.
  unfold StoreClient.connect.
  set (api1 := {| storeUrl := Some (normalizeStoreUrl url);
                  apiKey := Some key; isConnected := isConnected api;
                  rateLimitRemaining := rateLimitRemaining api;
                  lastRequestTime := lastRequestTime api |}).
  rewrite (makeRequest_let_through _ None None api1 net)
    by (right; reflexivity).
  set (waited := waitForRateLimit api1 _ _).
  set (request := requestFor (snd waited) _ None None).
  assert (request
          = {| StoreClient.url :=
                 lit "https://" ++ normalizeStoreUrl url
                 ++ lit "/admin/api/2023-10/shop.json";
               method := lit "GET"; accessToken := Some key;
               body := None |}) as Hrequest by done.
  assert (storeUrl (snd waited) = Some (normalizeStoreUrl url)
          ∧ apiKey (snd waited) = Some key
          ∧ isConnected (snd waited) = isConnected api)
    as (Hurl & Hkey & Hconn) by done.
  destruct (respond (length (sent net)) request) as [response|].
  - destruct (updateRateLimit_keeps Number (snd waited) (headers response))
      as (Hurl' & Hkey' & Hconn' & _).
    rewrite Hurl in Hurl'. rewrite Hkey in Hkey'. rewrite Hconn in Hconn'.
    set (api2 := updateRateLimit Number (snd waited) (headers response))
      in *.
    destruct (ok response); [destruct (json response) as [data|]|];
      cbn beta iota zeta.
    + destruct (isNull data); [|destruct (shopOf data) as [shop|]];
        eexists (_, _); cbn [ending fst snd sent storeUrl apiKey isConnected];
        (split; [done|]); rewrite <- Hrequest;
        repeat split; try done; rewrite ?Hconn';
        try (by left); try (by intros [?|[? ?]]); eauto.
    + eexists (_, _). cbn [ending fst snd sent]. rewrite <- Hrequest.
      repeat split; try done; rewrite ?Hconn';
        try (by left); by intros [?|[? ?]].
    + eexists (_, _). cbn [ending fst snd sent]. rewrite <- Hrequest.
      repeat split; try done; rewrite ?Hconn';
        try (by left); by intros [?|[? ?]].
  - eexists (_, _). cbn [ending fst snd sent]. rewrite <- Hrequest.
    repeat split; try done; rewrite ?Hconn;
      try (by left); by intros [?|[? ?]].
Qed.

(** [getProducts] never asks for a second page: whatever the limit and
    whatever the reply, it sends one request, and what it returns are the
    products of that one reply. *)
Theorem getProducts_single_page fuel limit s :
  1 ≤ fuel →
  getProducts fuel limit s
  = match makeRequest
            (productsEndpoint formEncode limit None) None None s with
    | Done response s' =>
        match (if isNull response then None else productsOf response) with
        | Some page => Done page s'
        | None => Fail TypeError s'
        end
    | Fail e s' => Fail e s'
    | Hang => Hang
    end.
Proof.
  intros Hfuel. destruct fuel as [|fuel]; [lia|].
  unfold StoreClient.getProducts. cbn [getProducts_loop].
  unfold mbind, Act_bind.
  destruct (makeRequest _ None None s) as [response s'| |]; try done.
  by destruct (if isNull response then None else productsOf response).
Qed.

(** [getInstalledApps] never throws and always ends: every failure of its
    request is turned into the empty list.  On a client that is not
    connected that is all it does: nothing is sent and the client is left
    as it was. *)
Theorem getInstalledApps_never_throws chargesOf s :
  ∃ apps s',
    getInstalledApps Json clock respond Number isNull errorDetail chargesOf s
    = Done apps s'
    ∧ (isConnected (fst s) = false → apps = None ∧ s' = s)
    ∧ (∀ e, makeRequest (lit "/admin/api/2023-10/application_charges.json")
              None None s = Fail e s' → apps = None).
Proof.
  unfold getInstalledApps. destruct s as [api net]. cbn [fst].
  destruct (isConnected api) eqn:Hconn.
  - rewrite makeRequest_let_through by by left.
    destruct (respond _ _) as [response|]; cbn beta iota zeta.
    + destruct (ok response); cbn [negb];
        [destruct (json response) as [data|];
         [destruct (isNull data)|]|];
        eexists _, _; by repeat split.
    + eexists _, _. by repeat split.
  - unfold StoreClient.makeRequest. cbn [fst]. rewrite Hconn.
    change (negb false && negb (includes (lit "/shop.json")
              (lit "/admin/api/2023-10/application_charges.json")))
      with true.
    cbn beta iota. eexists _, _. by repeat split.
Qed.

End Requests.

Lemma updateRateLimit_decimal api headers (used total : jsstring) :
  forallb isDigit used = true →
  forallb isDigit total = true →
  get headers "X-Shopify-Shop-Api-Call-Limit"
  = Some (used ++ lit "/" ++ total) →
  rateLimitRemaining (updateRateLimit decimalNumber api headers)
  = Num (digitsValue total - digitsValue used).
Proof.
  intros Hused Htotal Hget. unfold updateRateLimit. rewrite Hget.
  assert (JS.truthy (used ++ lit "/" ++ total) = true) as ->.
  { apply truthy_true. by destruct used. }
  change (lit "/") with [47%N]. simpl app.
  rewrite split_two_pieces by by apply digits_no_slash.
  simpl. by rewrite !decimalNumber_digits.
Qed.

Section Pacing.
Variable Json : Type.
Variable clock : nat → Z.
Variable respond : nat → Request Json → option (Response Json).
Variable isNull : Json → bool.
Variable errorDetail : Json → option jsstring.

Abbreviation request :=
  (StoreClient.makeRequest Json clock respond decimalNumber isNull
     errorDetail).

(** Two requests in a row on a connected client: when the response to the
    first reports at most two calls left ([used/total] with
    [total - used <= 2]), the second waits for what is left of the 1000 ms
    that began when the first was stamped, and does not wait when they
    have passed. *)
Theorem makeRequest_paced endpoint optMethod optBody endpoint' optMethod'
    optBody' api net response (used total : jsstring) s1 :
  isConnected api = true →
  respond (length (sent net))
    (requestFor (snd (waitForRateLimit api (clock (clockReads net))
                        (clock (S (clockReads net)))))
       endpoint optMethod optBody)
  = Some response →
  forallb isDigit used = true →
  forallb isDigit total = true →
  get (headers response) "X-Shopify-Shop-Api-Call-Limit"
  = Some (used ++ lit "/" ++ total) →
  (digitsValue total - digitsValue used ≤ 2)%Z →
  ending (request endpoint optMethod optBody (api, net)) = Some s1 →
  let elapsed :=
    (clock (S (S (clockReads net))) - clock (S (clockReads net)))%Z in
  ∃ s2,
    ending (request endpoint' optMethod' optBody' s1) = Some s2
    ∧ timers (snd s2)
      = timers (snd s1)
        ++ (if (elapsed <? 1000)%Z then [(1000 - elapsed)%Z] else []).
Proof.
  intros Hconn Hrespond Hused Htotal Hget Hleft Hs1 elapsed.
  rewrite (makeRequest_let_through _ _ _ _ _ _ _ _ _ _ _
             (or_introl Hconn)) in Hs1.
  rewrite Hrespond in Hs1. cbn beta iota zeta in Hs1.
  set (waited := waitForRateLimit api _ _) in *.
  set (api1 := updateRateLimit decimalNumber (snd waited) (headers response))
    in *.
  set (net1 := {| clockReads := S (S (clockReads net));
                  sent := sent net ++ _; timers := _ |}) in *.
  assert (s1 = (api1, net1)) as ->.
  { destruct (ok response), (json response); by injection Hs1 as <-. }
  destruct (updateRateLimit_keeps decimalNumber (snd waited)
              (headers response)) as (_ & _ & Hconn1 & Hstamp1).
  fold api1 in Hconn1, Hstamp1.
  assert (rateLimitRemaining api1
          = Num (digitsValue total - digitsValue used)) as Hleft1
    by by apply updateRateLimit_decimal.
  rewrite (makeRequest_let_through _ _ _ _ _ _ _ _ _ api1 net1)
    by (left; by rewrite Hconn1).
  set (waited' := waitForRateLimit api1 _ _).
  assert (fst waited'
          = if (elapsed <? 1000)%Z then Some (1000 - elapsed)%Z else None)
    as Hwait.
  { unfold waited', waitForRateLimit. cbn [fst].
    rewrite Hleft1, Hstamp1. cbn [clockReads net1 lessOrEqual].
    change (lastRequestTime (snd waited)) with (clock (S (clockReads net))).
    fold elapsed. rewrite (proj2 (Z.leb_le _ _) Hleft). done. }
  set (net2 := {| clockReads := S (S (clockReads net1));
                  sent := sent net1 ++ _; timers := _ |}).
  assert (timers net2
          = timers net1
            ++ (if (elapsed <? 1000)%Z then [(1000 - elapsed)%Z] else []))
    as Htimers.
  { unfold net2. cbn [timers]. rewrite Hwait. by destruct (elapsed <? 1000)%Z. }
  destruct (respond (length (sent net1)) _) as [response'|].
  - destruct (ok response'); [destruct (json response')|];
      eexists (_, net2); by split.
  - eexists (_, net2). by split.
Qed.

End Pacing.

Lemma getProducts_single_page_witness :
  length (sent (snd (default (Shop.connected, Shop.quiet)
                       (ending (getProducts Shop.Body Shop.clock Shop.respond
                                  decimalNumber Shop.isNull Shop.errorDetail
                                  Shop.productsOf Shop.formEncode 5 250
                                  (Shop.connected, Shop.quiet))))))
  = 1.
Proof.
  rewrite (getProducts_single_page Shop.Body Shop.clock Shop.respond
             decimalNumber Shop.isNull Shop.errorDetail Shop.productsOf
             Shop.formEncode 5 250 (Shop.connected, Shop.quiet))
    by lia.
  reflexivity.
Defined.

Lemma makeRequest_paced_witness :
  ∃ s2,
    ending (Shop.makeRequest (Jobs.productEndpoint (lit "8")) None None
              Shop.afterRead)
    = Some s2
    ∧ timers (snd s2) = [700%Z].
Proof.
  destruct (makeRequest_paced Shop.Body Shop.clock Shop.respond Shop.isNull
              Shop.errorDetail
              (Jobs.productEndpoint (lit "7")) None None
              (Jobs.productEndpoint (lit "8")) None None
              Shop.connected Shop.quiet
              {| ok := true; status := 200; headers := Shop.busy;
                 json := Some (Shop.ProductBody Shop.shirt) |}
              (lit "39") (lit "40") Shop.afterRead)
    as (s2 & Hrun & Htimers);
    [reflexivity|reflexivity|reflexivity|reflexivity|reflexivity
    |by vm_compute|reflexivity|].
  exists s2. split; [exact Hrun|exact Htimers].
Defined.

End StoreFacts.

(** ** The product translation job *)

Module JobFacts.
Import Dom TranslationService Apply ShopifyAPI StoreClient Jobs StoreFacts.

Section Job.
Variable Json : Type.
Variable clock : nat → Z.
Variable respond : nat → Request Json → option (Response Json).
Variable Number : jsstring → jsnum.
Variable isNull : Json → bool.
Variable errorDetail : Json → option jsstring.
Variable parseHTML : jsstring → list node.
Variable serializeHTML : list node → jsstring.
Variable upstream : nat → FetchOutcome.
Variable page : Page.
Variable productOf : Json → option StoreItem.
Variable productBody : StoreItem → Json.

Abbreviation loop :=
  (translateProducts_loop Json clock respond Number isNull errorDetail
     parseHTML serializeHTML upstream page productOf productBody).

Lemma requestFor_same (a b : Client) endpoint optMethod (optBody : option Json) :
  storeUrl a = storeUrl b → apiKey a = apiKey b →
  requestFor a endpoint optMethod optBody
  = requestFor b endpoint optMethod optBody.
Proof. unfold requestFor. by intros -> ->. Qed.

(** What one request leaves of the client and adds to what was sent. *)
Lemma makeRequest_sent endpoint optMethod optBody api net s' :
  ending (makeRequest Json clock respond Number isNull errorDetail
            endpoint optMethod optBody (api, net)) = Some s' →
  storeUrl (fst s') = storeUrl api ∧ apiKey (fst s') = apiKey api
  ∧ ((sent (snd s') = sent net
      ∧ ∀ data, makeRequest Json clock respond Number isNull errorDetail
                  endpoint optMethod optBody (api, net) ≠ Done data s')
     ∨ sent (snd s')
       = sent net ++ [requestFor api endpoint optMethod optBody]).
Proof.
  destruct (negb (isConnected api)
            && negb (includes (lit "/shop.json") endpoint)) eqn:Hguard.
  - unfold makeRequest. cbn [fst]. rewrite Hguard.
    intros [= <-]. by repeat split; [..|left].
  - rewrite makeRequest_let_through.
    2:{ apply andb_false_iff in Hguard as [H|H];
          apply negb_false_iff in H; auto. }
    set (waited := waitForRateLimit api _ _).
    assert (storeUrl (snd waited) = storeUrl api
            ∧ apiKey (snd waited) = apiKey api) as [Hurl Hkey] by done.
    rewrite (requestFor_same (snd waited) api) by done.
    destruct (respond _ _) as [response|].
    + cbn beta iota zeta.
      destruct (ok response); [destruct (json response)|];
        intros [= <-]; cbn [fst snd sent];
        (split; [exact (proj1 (updateRateLimit_keeps _ _ _))|]);
        (split; [exact (proj1 (proj2 (updateRateLimit_keeps _ _ _)))|]);
        by right.
    + intros [= <-]. by repeat split; [..|right].
Qed.

Lemma getProductForTranslation_sent productId s r :
  getProductForTranslation Json clock respond Number isNull errorDetail
    productOf productId s = r →
  ∀ s', ending r = Some s' →
    storeUrl (fst s') = storeUrl (fst s) ∧ apiKey (fst s') = apiKey (fst s)
    ∧ ((sent (snd s') = sent (snd s) ∧ ∀ x, r ≠ Done x s')
       ∨ sent (snd s')
         = sent (snd s)
           ++ [requestFor (fst s) (productEndpoint productId) None None]).
Proof.
  intros <- s'. unfold getProductForTranslation. destruct s as [api net].
  pose proof (makeRequest_sent (productEndpoint productId) None None api net)
    as Hsent.
  destruct (makeRequest _ _ _ _ _ _ _ _ _ _) as [response s1|e s1|];
    [| |done].
  - destruct (Hsent s1 eq_refl) as (Hurl & Hkey & [[_ Hno]|Hsent']);
      [by destruct (Hno response)|].
    destruct (isNull response); intros [= <-]; by repeat split; [..|right].
  - intros [= <-].
    destruct (Hsent s1 eq_refl) as (Hurl & Hkey & [[Hsame _]|Hsent']);
      repeat split; try done; [left|right]; by repeat split.
Qed.

Lemma updateProduct_sent productId data s r :
  updateProduct Json clock respond Number isNull errorDetail productOf
    productBody productId data s = r →
  ∀ s', ending r = Some s' →
    storeUrl (fst s') = storeUrl (fst s) ∧ apiKey (fst s') = apiKey (fst s)
    ∧ ((sent (snd s') = sent (snd s) ∧ ∀ x, r ≠ Done x s')
       ∨ sent (snd s')
         = sent (snd s)
           ++ [requestFor (fst s) (productEndpoint productId)
                 (Some (lit "PUT")) (Some (productBody data))]).
Proof.
  intros <- s'. unfold updateProduct. destruct s as [api net].
  pose proof (makeRequest_sent (productEndpoint productId)
                (Some (lit "PUT")) (Some (productBody data)) api net)
    as Hsent.
  destruct (makeRequest _ _ _ _ _ _ _ _ _ _) as [response s1|e s1|];
    [| |done].
  - destruct (Hsent s1 eq_refl) as (Hurl & Hkey & [[_ Hno]|Hsent']);
      [by destruct (Hno response)|].
    destruct (isNull response); intros [= <-]; by repeat split; [..|right].
  - intros [= <-].
    destruct (Hsent s1 eq_refl) as (Hurl & Hkey & [[Hsame _]|Hsent']);
      repeat split; try done; [left|right]; by repeat split.
Qed.

(** Once the job has failed on an item, the items selected after it are
    not looked at: the job ends as it would without them. *)
Theorem translateProducts_loop_aborts selectedFields targetLanguage
    ids more d e d' :
  loop selectedFields targetLanguage ids d = (Aborted e, d') →
  loop selectedFields targetLanguage (ids ++ more) d = (Aborted e, d').
Proof.
  revert d. induction ids as [|productId ids IH]; intros d; [done|].
  cbn [app translateProducts_loop].
  destruct (getProductForTranslation _ _ _ _ _ _ _ _ _)
    as [[product|] s'|e' s'|]; try done.
  case_bool_decide; [by apply IH|].
  destruct (batchTranslate _ _ _ _ _ _) as [translated t'|e' t'|]; try done.
  destruct (updateProduct _ _ _ _ _ _ _ _ _ _ _) as [? s''|e' s''|];
    try done.
  by apply IH.
Qed.

(** What a product job sends to the store.  The selected products are
    taken in order, each one read once; a product is written at most once,
    right after it was read, with the method PUT on the endpoint it was
    read from; and nothing is sent for a product after one on which the
    job failed.  A job that reaches its end has read every selected
    product. *)
Theorem translateProducts_loop_requests selectedFields targetLanguage
    ids d e d' :
  loop selectedFields targetLanguage ids d = (e, d') →
  ∃ blocks,
    sent (snd (store d')) = sent (snd (store d)) ++ concat blocks
    ∧ Forall2 (itemRequests Json productBody (fst (store d)))
        (take (length blocks) ids) blocks
    ∧ (∀ k block, blocks !! k = Some block →
         S k < length blocks ∨ e = Completed → block ≠ [])
    ∧ (e = Completed → length blocks = length ids).
Proof.
  intros Hrun.
  enough (∀ api ids d e d',
            storeUrl (fst (store d)) = storeUrl api →
            apiKey (fst (store d)) = apiKey api →
            loop selectedFields targetLanguage ids d = (e, d') →
            ∃ blocks,
              sent (snd (store d')) = sent (snd (store d)) ++ concat blocks
              ∧ Forall2 (itemRequests Json productBody api)
                  (take (length blocks) ids) blocks
              ∧ (∀ k block, blocks !! k = Some block →
                   S k < length blocks ∨ e = Completed → block ≠ [])
              ∧ (e = Completed → length blocks = length ids)) as Hany
    by by apply (Hany (fst (store d))).
  clear ids d e d' Hrun. intros api ids.
  induction ids as [|productId ids IH]; intros d e d' Hurl Hkey.
  { intros [= <- <-]. exists []. rewrite app_nil_r.
    repeat split; [constructor|done]. }
  pose (read := requestFor api (productEndpoint productId) None
                  (None : option Json)).
  assert (∀ block, itemRequests Json productBody api productId block →
            block ≠ [] →
            ∀ s t e', sent (snd s) = sent (snd (store d)) ++ block →
              e' ≠ Completed →
              ∃ blocks,
                sent (snd (store {| store := s; service := t |}))
                = sent (snd (store d)) ++ concat blocks
                ∧ Forall2 (itemRequests Json productBody api)
                    (take (length blocks) (productId :: ids)) blocks
                ∧ (∀ k b, blocks !! k = Some b →
                     S k < length blocks ∨ e' = Completed → b ≠ [])
                ∧ (e' = Completed →
                   length blocks = length (productId :: ids))) as Hlast.
  { intros block Hblock Hne s t e' Hsent He'. exists [block].
    cbn [concat length firstn store snd]. rewrite app_nil_r.
    repeat split; [done| | |done].
    { constructor; [exact Hblock|]. simpl. constructor. }
    intros [|k] b [= <-]. by intros _. }
  assert (∀ block, itemRequests Json productBody api productId block →
            block ≠ [] →
            ∀ d1, sent (snd (store d1)) = sent (snd (store d)) ++ block →
              storeUrl (fst (store d1)) = storeUrl api →
              apiKey (fst (store d1)) = apiKey api →
              loop selectedFields targetLanguage ids d1 = (e, d') →
              ∃ blocks,
                sent (snd (store d')) = sent (snd (store d)) ++ concat blocks
                ∧ Forall2 (itemRequests Json productBody api)
                    (take (length blocks) (productId :: ids)) blocks
                ∧ (∀ k b, blocks !! k = Some b →
                     S k < length blocks ∨ e = Completed → b ≠ [])
                ∧ (e = Completed →
                   length blocks = length (productId :: ids))) as Hnext.
  { intros block Hblock Hne d1 Hsent Hurl1 Hkey1 Hrun.
    destruct (IH d1 e d' Hurl1 Hkey1 Hrun)
      as (blocks & Hsent' & Hall & Hfull & Hlen).
    exists (block :: blocks). cbn [concat length firstn].
    rewrite Hsent', Hsent, <- app_assoc.
    repeat split; [by constructor| |by intros ->%Hlen].
    intros [|k] b; cbn [lookup list_lookup length].
    - by intros [= <-] _.
    - intros Hb [Hk|He]; apply (Hfull k b Hb); [left; lia|by right]. }
  cbn [translateProducts_loop].
  pose proof (getProductForTranslation_sent productId (store d) _ eq_refl)
    as Hget.
  destruct (getProductForTranslation _ _ _ _ _ _ _ _ _)
    as [[product|] s'|e' s'|].
  - destruct (Hget s' eq_refl) as (Hurl' & Hkey' & [[_ Hno]|Hsent]);
      [by destruct (Hno (Some product))|].
    rewrite (requestFor_same (fst (store d)) api) in Hsent by done.
    rewrite Hurl in Hurl'. rewrite Hkey in Hkey'.
    assert (itemRequests Json productBody api productId [read]) as Hread
      by (right; by left).
    case_bool_decide.
    { by apply (Hnext [read]). }
    destruct (batchTranslate _ _ _ _ _ _) as [translated t'|e' t'|].
    + pose proof (updateProduct_sent productId
                    (applyProductTranslations parseHTML serializeHTML
                       product translated selectedFields) s' _ eq_refl)
        as Hput.
      set (data := applyProductTranslations _ _ _ _ _) in *.
      pose (write := requestFor api (productEndpoint productId)
                       (Some (lit "PUT")) (Some (productBody data))).
      assert (itemRequests Json productBody api productId [read; write])
        as Hwrite by (right; right; by exists data).
      destruct (updateProduct _ _ _ _ _ _ _ _ _ _ _) as [x s''|e' s''|].
      * destruct (Hput s'' eq_refl) as (Hurl'' & Hkey'' & [[_ Hno]|Hsent']);
          [by destruct (Hno x)|].
        rewrite (requestFor_same (fst s') api) in Hsent' by done.
        apply (Hnext [read; write]); try done; cbn [store fst snd].
        -- by rewrite Hsent', Hsent, <- app_assoc.
        -- by rewrite Hurl''.
        -- by rewrite Hkey''.
      * intros [= <- <-].
        destruct (Hput s'' eq_refl)
          as (Hurl'' & Hkey'' & [[Hsame _]|Hsent']).
        -- apply (Hlast [read]); try done. by rewrite Hsame.
        -- rewrite (requestFor_same (fst s') api) in Hsent' by done.
           apply (Hlast [read; write]); try done.
           by rewrite Hsent', Hsent, <- app_assoc.
      * intros [= <- <-]. by apply (Hlast [read]).
    + intros [= <- <-]. by apply (Hlast [read]).
    + intros [= <- <-]. by apply (Hlast [read]).
  - intros [= <- <-].
    destruct (Hget s' eq_refl) as (Hurl' & Hkey' & [[_ Hno]|Hsent]);
      [by destruct (Hno None)|].
    rewrite (requestFor_same (fst (store d)) api) in Hsent by done.
    apply (Hlast [read]); try done. right; by left.
  - intros [= <- <-].
    destruct (Hget s' eq_refl) as (Hurl' & Hkey' & [[Hsame _]|Hsent]).
    + exists [[]]. cbn [concat length firstn store snd app].
      rewrite app_nil_r. repeat split; try done.
      * constructor; [by left|]. simpl. constructor.
      * intros [|k] b; [|done]. intros _ [?|?]; [simpl in *; lia|done].
    + rewrite (requestFor_same (fst (store d)) api) in Hsent by done.
      apply (Hlast [read]); try done. right; by left.
  - intros [= <- <-]. exists []. rewrite app_nil_r.
    repeat split; [constructor|done..].
Qed.

End Job.

Lemma translateProducts_loop_aborts_witness :
  Shop.loop Shop.titleOnly (lit "es") ([lit "7"] ++ [lit "8"]) Shop.desk
  = (Aborted (Error (lit "API Error 500: Unknown error")),
     snd (Shop.loop Shop.titleOnly (lit "es") [lit "7"] Shop.desk)).
Proof.
  apply (translateProducts_loop_aborts Shop.Body Shop.clock Shop.respond
           decimalNumber Shop.isNull Shop.errorDetail Browser.parseHTML
           Browser.serializeHTML Fixtures.secondFails Fixtures.bare
           Shop.productOf Shop.ProductBody).
  vm_compute. reflexivity.
Defined.

Lemma translateProducts_loop_requests_witness :
  ∃ blocks,
    sent (snd (store (snd Shop.run)))
    = sent (snd (store Shop.desk)) ++ concat blocks
    ∧ Forall2 (itemRequests Shop.Body Shop.ProductBody Shop.connected)
        (take (length blocks) [lit "7"; lit "8"]) blocks
    ∧ (∀ k block, blocks !! k = Some block →
         S k < length blocks ∨ fst Shop.run = Completed → block ≠ [])
    ∧ (fst Shop.run = Completed → length blocks = 2).
Proof.
  apply (translateProducts_loop_requests Shop.Body Shop.clock Shop.respond
           decimalNumber Shop.isNull Shop.errorDetail Browser.parseHTML
           Browser.serializeHTML Fixtures.secondFails Fixtures.bare
           Shop.productOf Shop.ProductBody Shop.titleOnly (lit "es") [lit "7"; lit "8"]
           Shop.desk (fst Shop.run) (snd Shop.run)).
  apply surjective_pairing.
Defined.

End JobFacts.
